(** * Rangefinder ground-truth dataset preparation: a verified model

    A shallow embedding of [Scripts/prepare_ground_truth_dataset.py]:
    distance bands and their quotas, the robust depth statistics
    ([sample_center_patch], [compute_percentiles]), the two dataset
    adapters with their quota-gated admission, the synthetic generator
    and the driver [main].

    Numbers.  A Python [float] or a NumPy [float32] is either NaN, an
    infinity, or a finite dyadic rational.  Finite values are modelled
    as rationals ([Q]); every arithmetic result is rounded to the working
    precision by [round_prec] (round to nearest, ties to even, with an
    unbounded exponent range: all quantities handled here lie far from
    the overflow and underflow thresholds).  Comparisons are exact. *)

From Stdlib Require Import QArith Qround Qpower Lqa ZArith Lia.
From Stdlib Require Import List String Ascii Permutation.
From Stdlib Require Import Decimal DecimalString DecimalN DecimalPos.
From stdpp Require Import gmap strings.
Import ListNotations.

Local Open Scope Q_scope.

(* ================================================================== *)
(** * Part I: the embedding                                            *)
(* ================================================================== *)

(** ** Floating-point values *)

(** Nearest integer, ties to even. *)
Definition rne (q : Q) : Z :=
  let f := Qfloor q in
  match Qcompare (q - inject_Z f) (1 # 2) with
  | Lt => f
  | Gt => (f + 1)%Z
  | Eq => if Z.even f then f else (f + 1)%Z
  end.

(** The binade of a positive rational: the [e] with [2^e <= q < 2^(e+1)]. *)
Definition ilog2 (q : Q) : Z :=
  let k := (Z.log2 (Qnum q) - Z.log2 (Zpos (Qden q)))%Z in
  if Qle_bool (2 ^ k) q then k else (k - 1)%Z.

Definition round_pos (p : Z) (q : Q) : Q :=
  let s := 2 ^ (ilog2 q - p + 1) in inject_Z (rne (q / s)) * s.

(** Rounding to [p] significant bits. *)
Definition round_prec (p : Z) (q : Q) : Q :=
  match Qcompare q 0 with
  | Eq => 0
  | Gt => Qred (round_pos p q)
  | Lt => Qred (- round_pos p (- q))
  end.

(** NumPy [float32] and Python [float] (binary64). *)
Definition fl32 : Q -> Q := round_prec 24.
Definition fl64 : Q -> Q := round_prec 53.

(** A decimal literal of the source denotes the nearest binary64. *)
Definition lit (q : Q) : Q := fl64 q.

(** A pixel or distance as the code can meet it. *)
Inductive fval : Type :=
  | FNaN
  | FInf (negative : bool)
  | FFin (q : Q).

(** IEEE comparisons: anything compared with NaN is false. *)
Definition fle_b (x y : fval) : bool :=
  match x, y with
  | FNaN, _ | _, FNaN => false
  | FInf true, _ => true
  | _, FInf false => true
  | FInf false, _ => false
  | _, FInf true => false
  | FFin a, FFin b => Qle_bool a b
  end.

Definition Qlt_b (a b : Q) : bool := negb (Qle_bool b a).

Definition flt_b (x y : fval) : bool :=
  match x, y with
  | FNaN, _ | _, FNaN => false
  | FInf true, FInf true => false
  | FInf true, _ => true
  | FInf false, _ => false
  | FFin _, FInf s => negb s
  | FFin a, FFin b => Qlt_b a b
  end.

Definition isfinite (x : fval) : bool :=
  match x with FFin _ => true | _ => false end.

(** [x.astype(np.float32)] on one element. *)
Definition to_f32 (x : fval) : fval :=
  match x with FFin q => FFin (fl32 q) | _ => x end.

(** Python's [round(x, ndigits)] on a [float]: the exact value is rounded
    half-even to [ndigits] decimals, and the decimal result is converted
    to the nearest binary64. *)
Definition py_round (x : Q) (ndigits : Z) : Q :=
  fl64 (inject_Z (rne (x * 10 ^ ndigits)) / 10 ^ ndigits).

(** [round] on a NumPy [float64] scalar: scale, [rint], unscale, each
    step in binary64. *)
Definition np_round (x : Q) (ndigits : Z) : Q :=
  fl64 (inject_Z (rne (fl64 (x * 10 ^ ndigits))) / 10 ^ ndigits).

(** Python's [max(a, b)]: the first argument unless the second is larger. *)
Definition py_max (a b : Q) : Q := if Qlt_b a b then b else a.

(** ** Configuration *)

Definition DISTANCE_BANDS : list (string * (Q * Q)) :=
  [ ("close"%string,    (1 # 2, 3));
    ("near_mid"%string, (3, 8));
    ("mid"%string,      (8, 15));
    ("far_mid"%string,  (15, 50));
    ("far"%string,      (50, 150));
    ("long"%string,     (150, 350)) ].

Definition BAND_TARGETS : list (string * nat) :=
  [ ("close"%string,    2000%nat);
    ("near_mid"%string, 2000%nat);
    ("mid"%string,      1500%nat);
    ("far_mid"%string,  1500%nat);
    ("far"%string,      1500%nat);
    ("long"%string,     1500%nat) ].

Definition DEPTH_MAP_SIZE : Z := 128.
Definition ARKITSCENES_GT_W : Z := 1920.
Definition ARKITSCENES_GT_H : Z := 1440.

(** [d.get(k, default)] on a dict literal (insertion-ordered). *)
Fixpoint dict_get {V : Type} (d : list (string * V)) (k : string) (default : V) : V :=
  match d with
  | [] => default
  | (k', v) :: rest => if String.eqb k' k then v else dict_get rest k default
  end.

(** [BAND_TARGETS.get(band, 0)]. *)
Definition target (band : string) : nat := dict_get BAND_TARGETS band 0%nat.

(** [band_counts.get(band, 0)] on the mutable per-run dict. *)
Definition count (band_counts : gmap string nat) (band : string) : nat :=
  default 0%nat (band_counts !! band).

(** [band_counts[band] = band_counts.get(band, 0) + 1]. *)
Definition bump (band_counts : gmap string nat) (band : string) : gmap string nat :=
  <[band := S (count band_counts band)]> band_counts.

(** [{band: 0 for band in DISTANCE_BANDS}]. *)
Definition zero_counts : gmap string nat :=
  list_to_map (map (fun kv => (fst kv, 0%nat)) DISTANCE_BANDS).

(** ** Band classification *)

Definition in_band (d : fval) (lo hi : Q) : bool :=
  fle_b (FFin lo) d && flt_b d (FFin hi).

(** [classify_distance]: the first band, in table order, with
    [lo <= distance_m < hi]. *)
Fixpoint classify_in (bands : list (string * (Q * Q))) (distance_m : fval) : option string :=
  match bands with
  | [] => None
  | (band_name, (lo, hi)) :: rest =>
      if in_band distance_m lo hi then Some band_name
      else classify_in rest distance_m
  end.

Definition classify_distance (distance_m : fval) : option string :=
  classify_in DISTANCE_BANDS distance_m.

(** ** Depth maps and robust statistics *)

(** A 2-D array, row-major; [shape[:2]] is [(height, width)]. *)
Definition depth_map := list (list fval).

Definition height (m : depth_map) : nat := length m.
Definition width (m : depth_map) : nat :=
  match m with [] => 0%nat | row :: _ => length row end.

(** A NumPy array is rectangular. *)
Definition rectangular (m : depth_map) : Prop :=
  Forall (fun row => length row = width m) m.

(** Python's reading of a slice bound: negative bounds count from the
    end, and every bound is clipped to [0, len]. *)
Definition slice_bound (i : Z) (len : nat) : nat :=
  Z.to_nat (if (i <? 0)%Z then Z.max 0 (i + Z.of_nat len) else Z.min i (Z.of_nat len)).

(** [l[lo:hi]]. *)
Definition py_slice {A : Type} (lo hi : Z) (l : list A) : list A :=
  let a := slice_bound lo (length l) in
  let b := slice_bound hi (length l) in
  firstn (b - a) (skipn a l).

(** [m[y0:y1, x0:x1]]. *)
Definition slice2 (y0 y1 x0 x1 : Z) (m : depth_map) : depth_map :=
  map (py_slice x0 x1) (py_slice y0 y1 m).

(** The shared validity predicate
    [(x > 0.1) & (x < 1000.0) & np.isfinite(x)], evaluated on a [float32]
    array: the literal 0.1 is compared as a [float32]. *)
Definition valid_px (x : fval) : bool :=
  flt_b (FFin (fl32 (1 # 10))) x && flt_b x (FFin 1000) && isfinite x.

Definition valid_value (x : fval) : option Q :=
  match x with
  | FFin q => if valid_px x then Some q else None
  | _ => None
  end.

(** [a[mask]]: the selected elements, flattened in row-major order. *)
Definition valid_depths (m : depth_map) : list Q :=
  omap valid_value (concat m).

Fixpoint insert_sorted (x : Q) (l : list Q) : list Q :=
  match l with
  | [] => [x]
  | y :: rest => if Qle_bool x y then x :: l else y :: insert_sorted x rest
  end.

Definition sort_asc (l : list Q) : list Q := fold_right insert_sorted [] l.

(** [np.median] of a non-empty [float32] vector: the middle order
    statistic, or the [float32] mean of the two middle ones. *)
Definition np_median (v : list Q) : Q :=
  let s := sort_asc v in
  let n := length s in
  if Nat.even n
  then fl32 (fl32 (nth (n / 2 - 1) s 0 + nth (n / 2) s 0) / 2)
  else nth (n / 2) s 0.

(** Linear interpolation in a sorted vector at a virtual index: between
    the order statistic below it and the next one. *)
Definition interpolate (s : list Q) (vidx : Q) : Q :=
  let i := Qfloor vidx in
  let g := vidx - inject_Z i in
  let a := nth (Z.to_nat i) s 0 in
  let b := nth (Nat.min (Z.to_nat i + 1) (length s - 1)) s 0 in
  a + (b - a) * g.

(** [np.percentile(v, q)], default method: linear interpolation between
    the two order statistics around the virtual index [(n-1)*q/100].
    The interpolation is taken exactly and rounded once to [float32]
    (NumPy's own evaluation order is not part of this repository). *)
Definition np_percentile (v : list Q) (q : Q) : Q :=
  let s := sort_asc v in
  fl32 (interpolate s (inject_Z (Z.of_nat (length s - 1)) * (q / 100))).

(** Python's [int(x)] on a float: truncation toward zero. *)
Definition py_int (x : Q) : Z := Z.quot (Qnum x) (Zpos (Qden x)).

(** [sample_center_patch]: median of the valid pixels of the
    [(2r+1) x (2r+1)] patch around [(h // 2, w // 2)], clipped at the
    edges; [None] with fewer than three valid pixels. *)
Definition sample_center_patch (depth : depth_map) (patch_radius : Z) : option Q :=
  let h := Z.of_nat (height depth) in
  let w := Z.of_nat (width depth) in
  let cy := (h / 2)%Z in
  let cx := (w / 2)%Z in
  let r := patch_radius in
  let patch :=
    slice2 (Z.max 0 (cy - r)) (Z.min h (cy + r + 1))
           (Z.max 0 (cx - r)) (Z.min w (cx + r + 1)) depth in
  let valid := valid_depths patch in
  if (length valid <? 3)%nat then None
  else Some (np_median valid).

(** [compute_percentiles]: P25 and P75 of the valid pixels of the
    central 30% region; [(None, None)] with fewer than ten valid pixels. *)
Definition compute_percentiles (depth : depth_map) : option Q * option Q :=
  let h := Z.of_nat (height depth) in
  let w := Z.of_nat (width depth) in
  let roi_h := py_int (fl64 (inject_Z h * lit (3 # 10))) in
  let roi_w := py_int (fl64 (inject_Z w * lit (3 # 10))) in
  let y0 := ((h - roi_h) / 2)%Z in
  let x0 := ((w - roi_w) / 2)%Z in
  let roi := slice2 y0 (y0 + roi_h) x0 (x0 + roi_w) depth in
  let valid := valid_depths roi in
  if (length valid <? 10)%nat then (None, None)
  else (Some (np_percentile valid 25), Some (np_percentile valid 75)).

(** ** Samples *)

Record Intrinsics : Type := mkIntrinsics { fx : Q; fy : Q; cx : Q; cy : Q }.

Record GroundTruthSample : Type := mkSample {
  dataset : string;
  frame_id : string;
  ground_truth_center_m : Q;
  lidar_center_m : option Q;
  ground_truth_p25_m : option Q;
  ground_truth_p75_m : option Q;
  intrinsics : option Intrinsics;
  image_width : Z;
  image_height : Z;
  scene_type : string;
  distance_band : string;
  depth_map_file : option string;
  image_file : option string
}.

(** [round(x, 4) if x else None]: a float is falsy when it is zero. *)
Definition round4_if_truthy (x : option Q) : option Q :=
  match x with
  | Some v => if Qeq_bool v 0 then None else Some (py_round v 4)
  | None => None
  end.

(** ** Quota-gated admission (the loop bodies of the two adapters) *)

(** The calls one loop iteration makes on a decoded frame, in program
    order. *)
Inductive event : Type :=
  | EvCenter          (* sample_center_patch on the ground-truth map *)
  | EvLidarCenter     (* sample_center_patch on the LiDAR map *)
  | EvClassify        (* classify_distance *)
  | EvQuota           (* the band-quota test *)
  | EvSpread.         (* compute_percentiles *)

(** How an iteration ends: at one of the three [continue] statements,
    or with [samples.append(sample)]. *)
Inductive outcome : Type :=
  | RejectedInvalidCenter
  | RejectedUnbandable
  | RejectedNoSpace
  | Accepted (sample : GroundTruthSample).

(** The accumulator the adapters share: the sample list and the
    per-band counts. *)
Definition accumulator : Type := (list GroundTruthSample * gmap string nat)%type.

(** [samples.append(sample); band_counts[band] = band_counts.get(band, 0) + 1]. *)
Definition record_outcome (acc : accumulator) (o : outcome) : accumulator :=
  match o with
  | Accepted s => (fst acc ++ [s], bump (snd acc) (distance_band s))
  | _ => acc
  end.

Definition tier_depth_file (tier : Z) (frame_id : string) : option string :=
  if (2 <=? tier)%Z then Some ("depth/" ++ frame_id ++ ".bin")%string else None.

Definition tier_image_file (tier : Z) (has_rgb : bool) (frame_id : string) : option string :=
  if (3 <=? tier)%Z && has_rgb then Some ("images/" ++ frame_id ++ ".jpg")%string else None.

(** *** ARKitScenes *)

(** One file of [lowres_depth], decoded: the LiDAR map in metres, the
    ground-truth map when [highres_depth] has the same stem, and the
    numbers of the [.pincam] file when there is one. *)
Record ark_file : Type := mkArkFile {
  af_stem : string;
  af_lidar : depth_map;
  af_gt : option depth_map;
  af_pincam : option (list Q);
  af_has_rgb : bool
}.

(** A scene directory that has both depth directories; files sorted. *)
Record ark_scene : Type := mkArkScene {
  as_video_id : string;
  as_files : list ark_file
}.

Definition ark_intrinsics (pincam : option (list Q)) : option Intrinsics :=
  match pincam with
  | Some (v0 :: v1 :: v2 :: v3 :: _) => Some (mkIntrinsics v0 v1 v2 v3)
  | _ => None
  end.

(** A frame that reaches the admission protocol. *)
Record ark_candidate : Type := mkArkCandidate {
  ac_video_id : string;
  ac_file : ark_file;
  ac_gt : depth_map
}.

(** Lines 221-291. *)
Definition offer_arkitscenes (tier : Z) (band_counts : gmap string nat)
    (c : ark_candidate) : list event * outcome :=
  let f := ac_file c in
  match sample_center_patch (ac_gt c) 2 with
  | None => ([EvCenter], RejectedInvalidCenter)
  | Some gt_center =>
    if Qlt_b gt_center (lit (3 # 10)) then ([EvCenter], RejectedInvalidCenter)
    else
      let lidar_center := sample_center_patch (af_lidar f) 2 in
      match classify_distance (FFin gt_center) with
      | None => ([EvCenter; EvLidarCenter; EvClassify], RejectedUnbandable)
      | Some band =>
        if (target band <=? count band_counts band)%nat
        then ([EvCenter; EvLidarCenter; EvClassify; EvQuota], RejectedNoSpace)
        else
          let '(p25, p75) := compute_percentiles (ac_gt c) in
          let frame_id :=
            ("arkitscenes_" ++ ac_video_id c ++ "_" ++ af_stem f)%string in
          ([EvCenter; EvLidarCenter; EvClassify; EvQuota; EvSpread],
           Accepted {|
             dataset := "arkitscenes";
             frame_id := frame_id;
             ground_truth_center_m := py_round gt_center 4;
             lidar_center_m := round4_if_truthy lidar_center;
             ground_truth_p25_m := round4_if_truthy p25;
             ground_truth_p75_m := round4_if_truthy p75;
             intrinsics := ark_intrinsics (af_pincam f);
             image_width := ARKITSCENES_GT_W;
             image_height := ARKITSCENES_GT_H;
             scene_type := "indoor";
             distance_band := band;
             depth_map_file := tier_depth_file tier frame_id;
             image_file := tier_image_file tier (af_has_rgb f) frame_id |})
      end
  end.

Definition step_arkitscenes (tier : Z) (acc : accumulator) (c : ark_candidate)
    : accumulator :=
  record_outcome acc (snd (offer_arkitscenes tier (snd acc) c)).

(** [enumerate(depth_files)] keeping every tenth file whose ground-truth
    file exists. *)
Fixpoint ark_scene_candidates (video_id : string) (i : nat) (files : list ark_file)
    : list ark_candidate :=
  match files with
  | [] => []
  | f :: rest =>
      let tail := ark_scene_candidates video_id (S i) rest in
      if (i mod 10 =? 0)%nat
      then match af_gt f with
           | Some gt => mkArkCandidate video_id f gt :: tail
           | None => tail
           end
      else tail
  end.

Definition ark_candidates (scenes : list ark_scene) : list ark_candidate :=
  flat_map (fun s => ark_scene_candidates (as_video_id s) 0 (as_files s)) scenes.

(** ** Loops *)

(** [for x in xs: st = body(st, x)]. *)
Definition for_each {X S : Type} (body : S -> X -> S) (xs : list X) (st : S) : S :=
  fold_left body xs st.

(** The state after each iteration of that loop. *)
Fixpoint for_each_states {X S : Type} (body : S -> X -> S) (xs : list X) (st : S)
    : list S :=
  match xs with
  | [] => []
  | x :: rest => let st' := body st x in st' :: for_each_states body rest st'
  end.

(** [while cond(st): st = body(st)], run for at most [fuel] iterations. *)
Fixpoint while_loop {S : Type} (fuel : nat) (cond : S -> bool) (body : S -> S) (st : S)
    : option S :=
  if cond st then
    match fuel with
    | O => None
    | Datatypes.S fuel' => while_loop fuel' cond body (body st)
    end
  else Some st.

(** The state after each iteration of that loop. *)
Fixpoint while_states {S : Type} (fuel : nat) (cond : S -> bool) (body : S -> S) (st : S)
    : list S :=
  if cond st then
    match fuel with
    | O => []
    | Datatypes.S fuel' => let st' := body st in st' :: while_states fuel' cond body st'
    end
  else [].

Definition process_arkitscenes (tier : Z) (scenes : list ark_scene)
    (band_counts : gmap string nat) : accumulator :=
  for_each (step_arkitscenes tier) (ark_candidates scenes) ([], band_counts).

(** *** DIODE *)

(** One [*_depth.npy] file with its optional mask. *)
Record diode_frame : Type := mkDiodeFrame {
  df_stem : string;
  df_depth : depth_map;
  df_mask : option (list (list bool));
  df_has_rgb : bool
}.

Definition diode_scan : Type := (string * list diode_frame)%type.
Definition diode_scene : Type := (string * list diode_scan)%type.
(** [diode/<split>/<env_type>/...]: the directories that exist. *)
Definition diode_tree : Type := list (string * list (string * list diode_scene)).

Fixpoint lookup_dir {V : Type} (d : list (string * V)) (name : string) : option V :=
  match d with
  | [] => None
  | (k, v) :: rest => if String.eqb k name then Some v else lookup_dir rest name
  end.

(** [np.where(mask, depth_map, 0)]. *)
Definition np_where0 (mask : list (list bool)) (m : depth_map) : depth_map :=
  map (fun rw : list bool * list fval =>
         map (fun bx : bool * fval => if fst bx then snd bx else FFin 0)
                     (combine (fst rw) (snd rw)))
      (combine mask m).

Definition astype_f32 (m : depth_map) : depth_map := map (map to_f32) m.

Record diode_candidate : Type := mkDiodeCandidate {
  dc_env : string;
  dc_scene : string;
  dc_scan : string;
  dc_frame : diode_frame
}.

(** The map handed to the statistics: masked, then cast to [float32]. *)
Definition diode_depth32 (f : diode_frame) : depth_map :=
  astype_f32 (match df_mask f with
              | Some mask => np_where0 mask (df_depth f)
              | None => df_depth f
              end).

(** Lines 355-422. *)
Definition offer_diode (tier : Z) (band_counts : gmap string nat)
    (c : diode_candidate) : list event * outcome :=
  let f := dc_frame c in
  let depth := diode_depth32 f in
  match sample_center_patch depth 2 with
  | None => ([EvCenter], RejectedInvalidCenter)
  | Some gt_center =>
    if Qlt_b gt_center (lit (3 # 10)) then ([EvCenter], RejectedInvalidCenter)
    else
      match classify_distance (FFin gt_center) with
      | None => ([EvCenter; EvClassify], RejectedUnbandable)
      | Some band =>
        if (target band <=? count band_counts band)%nat
        then ([EvCenter; EvClassify; EvQuota], RejectedNoSpace)
        else
          let '(p25, p75) := compute_percentiles depth in
          let frame_id :=
            ("diode_" ++ dc_env c ++ "_" ++ dc_scene c ++ "_" ++ dc_scan c
               ++ "_" ++ df_stem f)%string in
          ([EvCenter; EvClassify; EvQuota; EvSpread],
           Accepted {|
             dataset := "diode";
             frame_id := frame_id;
             ground_truth_center_m := py_round gt_center 4;
             lidar_center_m := None;
             ground_truth_p25_m := round4_if_truthy p25;
             ground_truth_p75_m := round4_if_truthy p75;
             intrinsics :=
               Some (mkIntrinsics (lit (88681 # 100)) (lit (92706 # 100)) 512 384);
             image_width := 1024;
             image_height := 768;
             scene_type := dc_env c;
             distance_band := band;
             depth_map_file := tier_depth_file tier frame_id;
             image_file := tier_image_file tier (df_has_rgb f) frame_id |})
      end
  end.

Definition step_diode (tier : Z) (acc : accumulator) (c : diode_candidate)
    : accumulator :=
  record_outcome acc (snd (offer_diode tier (snd acc) c)).

(** The traversal order of [process_diode]: splits ["val"; "train"],
    then ["indoor"; "outdoor"], then scenes, scans and depth files. *)
Definition diode_candidates (tree : diode_tree) : list diode_candidate :=
  flat_map (fun split =>
    match lookup_dir tree split with
    | None => []
    | Some split_dir =>
      flat_map (fun env_type =>
        match lookup_dir split_dir env_type with
        | None => []
        | Some env_dir =>
          flat_map (fun scene : diode_scene =>
            flat_map (fun scan : diode_scan =>
              map (mkDiodeCandidate env_type (fst scene) (fst scan)) (snd scan))
              (snd scene))
            env_dir
        end) ["indoor"%string; "outdoor"%string]
    end) ["val"%string; "train"%string].

Definition process_diode (tier : Z) (tree : diode_tree)
    (band_counts : gmap string nat) : accumulator :=
  for_each (step_diode tier) (diode_candidates tree) ([], band_counts).

(** ** Pseudo-random sources *)

(** The two generators the script seeds, [random.Random(seed)] and
    [np.random.RandomState(seed)], as state-passing interfaces: a call
    maps the generator state to a draw and the next state.  The fields
    below the operations are the contracts their documentation states.
    [np_lognormal c sigma size] stands for
    [lognormal(mean=np.log(c), sigma=sigma, size=size)]. *)
Record RandomSource : Type := mkRandomSource {
  rng_state : Type;
  np_state : Type;
  Random : Z -> rng_state;
  RandomState : Z -> np_state;
  rng_random : rng_state -> Q * rng_state;
  rng_uniform : Q -> Q -> rng_state -> Q * rng_state;
  rng_randint : Z -> Z -> rng_state -> Z * rng_state;
  rng_randbelow : nat -> rng_state -> nat * rng_state;
  rng_shuffle : forall A : Type, list A -> rng_state -> list A * rng_state;
  np_lognormal : Q -> Q -> Z -> np_state -> list Q * np_state;
  np_normal : Q -> Q -> np_state -> Q * np_state;
  rng_uniform_range :
    forall a b s, a <= b ->
      a <= fst (rng_uniform a b s) /\ fst (rng_uniform a b s) <= b;
  rng_randint_range :
    forall a b s, (a <= b)%Z -> (a <= fst (rng_randint a b s) <= b)%Z;
  rng_randbelow_lt :
    forall n s, (0 < n)%nat -> (fst (rng_randbelow n s) < n)%nat;
  rng_shuffle_perm :
    forall (A : Type) (l : list A) s, Permutation (fst (rng_shuffle A l s)) l
}.

Arguments rng_shuffle _ {A} _ _.

(** [rng.choice(seq)] is [seq[rng._randbelow(len(seq))]]. *)
Definition rng_choice (R : RandomSource) (seq : list string) (s : rng_state R)
    : string * rng_state R :=
  let '(k, s') := rng_randbelow R (length seq) s in (nth k seq ""%string, s').

(** ** Frame identifiers of the synthetic generator *)

Definition decimal (n : N) : string :=
  NilEmpty.string_of_uint (N.to_uint n).

Fixpoint zeros (k : nat) : string :=
  match k with O => ""%string | S k' => String "0" (zeros k') end.

Definition zero_pad (width : nat) (s : string) : string :=
  (zeros (width - String.length s) ++ s)%string.

(** [f"{n:0<width>d}"]. *)
Definition format_0d (width : nat) (n : Z) : string :=
  if (n <? 0)%Z
  then ("-" ++ zero_pad (width - 1) (decimal (Z.abs_N n)))%string
  else zero_pad width (decimal (Z.abs_N n)).

(** Line 490. *)
Definition synthetic_ark_frame_id (scene_num frame_num : Z) : string :=
  ("arkitscenes_" ++ format_0d 5 scene_num ++ "_" ++ format_0d 10 frame_num)%string.

(** Lines 528 and 567. *)
Definition synthetic_diode_frame_id (env : string) (scene_num scan_num frame_num : Z)
    : string :=
  ("diode_" ++ env ++ "_scene_" ++ format_0d 5 scene_num ++ "_scan_"
     ++ format_0d 5 scan_num ++ "_" ++ format_0d 5 frame_num)%string.

(** Line 604. *)
Definition fill_frame_id (dataset env : string) (scene_num scan_num frame_num : Z)
    : string :=
  (dataset ++ "_" ++ env ++ "_" ++ format_0d 5 scene_num ++ "_"
     ++ format_0d 5 scan_num ++ "_" ++ format_0d 5 frame_num)%string.

(** ** The synthetic generator *)

Definition iphone_intrinsics : Intrinsics := mkIntrinsics 1598 1598 960 720.
Definition diode_intrinsics : Intrinsics :=
  mkIntrinsics (lit (88681 # 100)) (lit (92706 # 100)) 512 384.

(** [0.01 if d < 3.0 else (0.03 if d < 5.0 else 0.08)]. *)
Definition lidar_noise (d : Q) : Q :=
  if Qlt_b d 3 then lit (1 # 100)
  else if Qlt_b d 5 then lit (3 # 100) else lit (8 # 100).

(** [round(max(c, x), 4)] where [c] is a Python float and [x] a NumPy
    [float64]: [max] returns [x] itself when it is larger, and [round]
    follows the type of what it is given. *)
Definition round4_max (c x : Q) : Q :=
  if Qlt_b c x then np_round x 4 else py_round c 4.

Section Generator.

Context (R : RandomSource).

(** The local variables the loops of [generate_synthetic_manifest]
    update ([sample_idx] is written and never read: left out). *)
Record gen_state : Type := mkGen {
  g_rng : rng_state R;
  g_np : np_state R;
  g_samples : list GroundTruthSample;
  g_counts : gmap string nat
}.

(** First pass, lines 469-502 ([d] is a NumPy [float64]). *)
Definition synth_ark_body (st : gen_state) (d : Q) : gen_state :=
  match classify_distance (FFin d) with
  | None => st
  | Some band =>
    if (target band <=? count (g_counts st) band)%nat then st
    else
      let '(z, np1) := np_normal R 0 (lidar_noise d) (g_np st) in
      let lidar_reading := fl64 (d * fl64 (1 + z)) in
      let '(u, r1) := rng_uniform R (lit (3 # 10)) (lit (8 # 10)) (g_rng st) in
      let spread := fl64 (d * u) in
      let low := fl64 (d - fl64 (spread * lit (4 # 10))) in
      let p75 := fl64 (d + fl64 (spread * lit (6 # 10))) in
      let '(scene_num, r2) := rng_randint R 1 500 r1 in
      let '(frame_num, r3) := rng_randint R 1 5000 r2 in
      {| g_rng := r3;
         g_np := np1;
         g_samples := g_samples st ++ [ {|
           dataset := "arkitscenes";
           frame_id := synthetic_ark_frame_id scene_num frame_num;
           ground_truth_center_m := py_round d 4;
           lidar_center_m := Some (py_round lidar_reading 4);
           ground_truth_p25_m := Some (round4_max (lit (3 # 10)) low);
           ground_truth_p75_m := Some (np_round p75 4);
           intrinsics := Some iphone_intrinsics;
           image_width := 1920;
           image_height := 1440;
           scene_type := "indoor";
           distance_band := band;
           depth_map_file := None;
           image_file := None |} ];
         g_counts := bump (g_counts st) band |}
  end.

(** Second and third pass, lines 511-540 and 550-579: the two loops
    differ in the environment, the range of the spread factor, the clamp
    of P25 and the two spread weights. *)
Definition synth_diode_body (env : string) (u_lo u_hi floor w_lo w_hi : Q)
    (st : gen_state) (d : Q) : gen_state :=
  match classify_distance (FFin d) with
  | None => st
  | Some band =>
    if (target band <=? count (g_counts st) band)%nat then st
    else
      let '(u, r1) := rng_uniform R u_lo u_hi (g_rng st) in
      let spread := fl64 (d * u) in
      let low := fl64 (d - fl64 (spread * w_lo)) in
      let p75 := fl64 (d + fl64 (spread * w_hi)) in
      let '(scene_num, r2) := rng_randint R 1 200 r1 in
      let '(scan_num, r3) := rng_randint R 1 50 r2 in
      let '(frame_num, r4) := rng_randint R 1 300 r3 in
      {| g_rng := r4;
         g_np := g_np st;
         g_samples := g_samples st ++ [ {|
           dataset := "diode";
           frame_id := synthetic_diode_frame_id env scene_num scan_num frame_num;
           ground_truth_center_m := py_round d 4;
           lidar_center_m := None;
           ground_truth_p25_m := Some (round4_max floor low);
           ground_truth_p75_m := Some (np_round p75 4);
           intrinsics := Some diode_intrinsics;
           image_width := 1024;
           image_height := 768;
           scene_type := env;
           distance_band := band;
           depth_map_file := None;
           image_file := None |} ];
         g_counts := bump (g_counts st) band |}
  end.

Definition synth_indoor_body : gen_state -> Q -> gen_state :=
  synth_diode_body "indoor" (lit (2 # 10)) (lit (6 # 10)) (lit (3 # 10))
                   (lit (4 # 10)) (lit (6 # 10)).

Definition synth_outdoor_body : gen_state -> Q -> gen_state :=
  synth_diode_body "outdoor" (lit (4 # 10)) (lit (12 # 10)) (1 # 2)
                   (lit (3 # 10)) (lit (7 # 10)).

(** The guard of the fill loop, line 584. *)
Definition fill_cond (band_name : string) (st : gen_state) : bool :=
  (count (g_counts st) band_name <? target band_name)%nat.

(** The body of the fill loop, lines 585-623 (all Python floats). *)
Definition fill_body (band_name : string) (lo hi : Q) (st : gen_state) : gen_state :=
  let '(d, r1) := rng_uniform R lo hi (g_rng st) in
  let '(is_outdoor, r2) :=
    if Qlt_b 15 d then (true, r1)
    else let '(x, r) := rng_random R r1 in (Qlt_b x (lit (3 # 10)), r) in
  let '(dataset, r3) :=
    if is_outdoor || Qlt_b 10 d then ("diode"%string, r2)
    else rng_choice R ["arkitscenes"%string; "diode"%string] r2 in
  let scene_type := if is_outdoor then "outdoor"%string else "indoor"%string in
  let is_ark := String.eqb dataset "arkitscenes" in
  let '(lidar_reading, np1) :=
    if is_ark && Qlt_b d 10
    then let '(z, n) := np_normal R 0 (lidar_noise d) (g_np st) in
         (Some (py_round (fl64 (d * fl64 (1 + z))) 4), n)
    else (None, g_np st) in
  let '(u, r4) := rng_uniform R (lit (3 # 10)) 1 r3 in
  let spread := fl64 (d * u) in
  let p25 := py_max (lit (3 # 10)) (fl64 (d - fl64 (spread * lit (4 # 10)))) in
  let p75 := fl64 (d + fl64 (spread * lit (6 # 10))) in
  let '(scene_num, r5) := rng_randint R 1 500 r4 in
  let '(scan_num, r6) := rng_randint R 1 50 r5 in
  let '(frame_num, r7) := rng_randint R 1 5000 r6 in
  let env := if is_outdoor then "outdoor"%string else "indoor"%string in
  {| g_rng := r7;
     g_np := np1;
     g_samples := g_samples st ++ [ {|
       dataset := dataset;
       frame_id := fill_frame_id dataset env scene_num scan_num frame_num;
       ground_truth_center_m := py_round d 4;
       lidar_center_m := lidar_reading;
       ground_truth_p25_m := Some (py_round p25 4);
       ground_truth_p75_m := Some (py_round p75 4);
       intrinsics := Some (if is_ark then iphone_intrinsics else diode_intrinsics);
       image_width := if is_ark then 1920 else 1024;
       image_height := if is_ark then 1440 else 768;
       scene_type := scene_type;
       distance_band := band_name;
       depth_map_file := None;
       image_file := None |} ];
     g_counts := bump (g_counts st) band_name |}.

(** [for band_name, (lo, hi) in DISTANCE_BANDS.items(): while ...]. *)
Fixpoint fill_bands (fuel : nat) (bands : list (string * (Q * Q))) (st : gen_state)
    : option gen_state :=
  match bands with
  | [] => Some st
  | (band_name, (lo, hi)) :: rest =>
      match while_loop fuel (fill_cond band_name) (fill_body band_name lo hi) st with
      | Some st' => fill_bands fuel rest st'
      | None => None
      end
  end.

Fixpoint fill_bands_states (fuel : nat) (bands : list (string * (Q * Q)))
    (st : gen_state) : list gen_state :=
  match bands with
  | [] => []
  | (band_name, (lo, hi)) :: rest =>
      while_states fuel (fill_cond band_name) (fill_body band_name lo hi) st ++
      match while_loop fuel (fill_cond band_name) (fill_body band_name lo hi) st with
      | Some st' => fill_bands_states fuel rest st'
      | None => []
      end
  end.

(** [a[(a >= lo) & (a < hi)]]. *)
Definition between (lo hi : Q) (a : list Q) : list Q :=
  List.filter (fun d => Qle_bool lo d && Qlt_b d hi) a.

(** The state on entry to each of the three sampling loops, and on entry
    to the fill loops. *)
Definition gen_init (seed : Z) : gen_state :=
  mkGen (Random R seed) (RandomState R seed) [] zero_counts.

Definition ark_distances (st : gen_state) : list Q * gen_state :=
  let '(a, np1) := np_lognormal R (25 # 10) (lit (6 # 10)) 20000 (g_np st) in
  let a := between (1 # 2) 10 a in
  let '(_, r1) := rng_shuffle R (seq 0 (length a)) (g_rng st) in
  (a, mkGen r1 np1 (g_samples st) (g_counts st)).

Definition indoor_distances (st : gen_state) : list Q * gen_state :=
  let '(a, np1) := np_lognormal R 3 (1 # 2) 20000 (g_np st) in
  (between (1 # 2) 15 a, mkGen (g_rng st) np1 (g_samples st) (g_counts st)).

Definition outdoor_distances (st : gen_state) : list Q * gen_state :=
  let '(a, np1) := np_lognormal R 25 1 50000 (g_np st) in
  (between 5 350 a, mkGen (g_rng st) np1 (g_samples st) (g_counts st)).

Definition after_sampling (seed : Z) : gen_state :=
  let '(a1, s1) := ark_distances (gen_init seed) in
  let s1' := for_each synth_ark_body a1 s1 in
  let '(a2, s2) := indoor_distances s1' in
  let s2' := for_each synth_indoor_body a2 s2 in
  let '(a3, s3) := outdoor_distances s2' in
  for_each synth_outdoor_body a3 s3.

(** [generate_synthetic_manifest(output_dir, seed)]; [None] when a fill
    loop is still running after [fuel] iterations. *)
Definition generate_synthetic_manifest (fuel : nat) (output_dir : string) (seed : Z)
    : option (list GroundTruthSample) :=
  match fill_bands fuel DISTANCE_BANDS (after_sampling seed) with
  | Some st => Some (fst (rng_shuffle R (g_samples st) (g_rng st)))
  | None => None
  end.

(** The generator's own [band_counts] after each loop iteration. *)
Definition generator_counts (fuel : nat) (seed : Z) : list (gmap string nat) :=
  let '(a1, s1) := ark_distances (gen_init seed) in
  let s1' := for_each synth_ark_body a1 s1 in
  let '(a2, s2) := indoor_distances s1' in
  let s2' := for_each synth_indoor_body a2 s2 in
  let '(a3, s3) := outdoor_distances s2' in
  let s3' := for_each synth_outdoor_body a3 s3 in
  map g_counts
    (for_each_states synth_ark_body a1 s1 ++
     for_each_states synth_indoor_body a2 s2 ++
     for_each_states synth_outdoor_body a3 s3 ++
     fill_bands_states fuel DISTANCE_BANDS s3').

(** ** The driver *)

Record Args : Type := mkArgs {
  arg_output : string;
  arg_tier : Z;
  arg_data_dir : option string;
  arg_synthetic : bool;
  arg_seed : Z
}.

Definition synthetic_mode (args : Args) : bool :=
  arg_synthetic args || match arg_data_dir args with None => true | Some _ => false end.

(** Lines 723-727: the backfill of the bands real data left short. *)
Definition backfill_step (acc : accumulator) (s : GroundTruthSample) : accumulator :=
  let band := distance_band s in
  if (count (snd acc) band <? target band)%nat
  then (fst acc ++ [s], bump (snd acc) band)
  else acc.

Definition total_target : nat := list_sum (map snd BAND_TARGETS).

(** [len(all_samples) < total_target * 0.8]. *)
Definition needs_backfill (all_samples : list GroundTruthSample) : bool :=
  Qlt_b (inject_Z (Z.of_nat (length all_samples)))
        (fl64 (inject_Z (Z.of_nat total_target) * lit (8 # 10))).

(** The real-data branch up to the backfill test: the samples of both
    adapters and the shared counts. *)
Definition real_pass (tier : Z) (ark : list ark_scene) (diode : diode_tree)
    : accumulator :=
  let band_counts := zero_counts in
  let '(ark_samples, band_counts) := process_arkitscenes tier ark band_counts in
  let '(diode_samples, band_counts) := process_diode tier diode band_counts in
  (ark_samples ++ diode_samples, band_counts).

(** [main], up to the sample list handed to [write_manifest]; [ark] and
    [diode] are the decoded contents of the data directory. *)
Definition main (fuel : nat) (args : Args) (ark : list ark_scene) (diode : diode_tree)
    : option (list GroundTruthSample) :=
  if synthetic_mode args
  then generate_synthetic_manifest fuel (arg_output args) (arg_seed args)
  else
    let acc := real_pass (arg_tier args) ark diode in
    if needs_backfill (fst acc)
    then match generate_synthetic_manifest fuel (arg_output args) (arg_seed args) with
         | Some synthetic => Some (fst (for_each backfill_step synthetic acc))
         | None => None
         end
    else Some (fst acc).

(** The driver's [band_counts] after each admission step: none in
    synthetic mode (the generator keeps its own), otherwise both
    adapters, then the backfill. *)
Definition main_counts (fuel : nat) (args : Args) (ark : list ark_scene)
    (diode : diode_tree) : list (gmap string nat) :=
  if synthetic_mode args then []
  else
    let tier := arg_tier args in
    let acc1 := process_arkitscenes tier ark zero_counts in
    let acc := real_pass tier ark diode in
    map snd (for_each_states (step_arkitscenes tier) (ark_candidates ark)
                             ([], zero_counts)) ++
    map snd (for_each_states (step_diode tier) (diode_candidates diode)
                             ([], snd acc1)) ++
    if needs_backfill (fst acc)
    then match generate_synthetic_manifest fuel (arg_output args) (arg_seed args) with
         | Some synthetic => map snd (for_each_states backfill_step synthetic acc)
         | None => []
         end
    else [].

End Generator.

(* ================================================================== *)
(** * Part II: the vocabulary of the properties                        *)
(* ================================================================== *)

(** ** The centre estimate as the specification words it *)

Definition pixel (m : depth_map) (i j : nat) : fval := nth j (nth i m []) FNaN.

(** The indices within [r] of the centre [c], among [0 .. n-1]. *)
Definition spec_window (c r : Z) (n : nat) : list nat :=
  List.filter (fun i => (Z.abs (Z.of_nat i - c) <=? r)%Z) (seq 0 n).

(** The square patch of side [2r+1] centred at [(rows // 2, cols // 2)],
    clipped at the array edges. *)
Definition spec_patch (m : depth_map) (r : Z) : list fval :=
  flat_map (fun i => map (fun j => pixel m i j)
                         (spec_window (Z.of_nat (width m) / 2) r (width m)))
           (spec_window (Z.of_nat (height m) / 2) r (height m)).

(** Valid: finite, strictly greater than 0.1 and strictly less than
    1000.0 (0.1 being the [float32] literal the arrays are compared
    with). *)
Definition spec_valid (x : fval) : option Q :=
  match x with
  | FFin q => if Qlt_b (fl32 (1 # 10)) q && Qlt_b q 1000 then Some q else None
  | _ => None
  end.

(** [centerEstimate(map, radius)]: the median of the valid pixels of the
    patch, [None] when fewer than three are valid. *)
Definition centerEstimate (m : depth_map) (radius : Z) : option Q :=
  let valid := omap spec_valid (spec_patch m radius) in
  if (length valid <? 3)%nat then None else Some (np_median valid).

(** ** The admission protocol *)

(** The four conditions of admission, on the map handed to the
    statistics and the counts at the time of the offer. *)
Definition admissible (depth : depth_map) (band_counts : gmap string nat) : Prop :=
  exists center band,
    sample_center_patch depth 2 = Some center /\
    lit (3 # 10) <= center /\
    classify_distance (FFin center) = Some band /\
    (count band_counts band < target band)%nat.

Definition is_accepted (o : outcome) : Prop := exists s, o = Accepted s.

(** What one offer does, for either adapter: [checks] is the order of
    the adapter's calls. *)
Definition follows_protocol (checks : list event) (depth : depth_map)
    (acc acc' : accumulator) (r : list event * outcome) : Prop :=
  (is_accepted (snd r) <-> admissible depth (snd acc)) /\
  (exists k, fst r = firstn k checks) /\
  (In EvSpread (fst r) <-> is_accepted (snd r)) /\
  (snd r = RejectedInvalidCenter <->
     sample_center_patch depth 2 = None \/
     exists center, sample_center_patch depth 2 = Some center /\ center < lit (3 # 10)) /\
  (snd r = RejectedUnbandable <->
     exists center, sample_center_patch depth 2 = Some center /\
       lit (3 # 10) <= center /\ classify_distance (FFin center) = None) /\
  (snd r = RejectedNoSpace <->
     exists center band, sample_center_patch depth 2 = Some center /\
       lit (3 # 10) <= center /\ classify_distance (FFin center) = Some band /\
       (target band <= count (snd acc) band)%nat) /\
  (~ is_accepted (snd r) -> acc' = acc) /\
  (forall s, snd r = Accepted s ->
     acc' = (fst acc ++ [s], bump (snd acc) (distance_band s)) /\
     exists center, sample_center_patch depth 2 = Some center /\
       classify_distance (FFin center) = Some (distance_band s) /\
       (count (snd acc) (distance_band s) < target (distance_band s))%nat /\
       count (snd acc') (distance_band s) = S (count (snd acc) (distance_band s))).

(** ** The quota invariant *)

(** No band above its target. *)
Definition quota_ok (band_counts : gmap string nat) : Prop :=
  forall band, (count band_counts band <= target band)%nat.

(** One admission step on the counts: nothing changes, or one band that
    was below its target gains exactly one. *)
Definition admission_step (bc bc' : gmap string nat) : Prop :=
  bc' = bc \/
  exists band, (count bc band < target band)%nat /\ bc' = bump bc band.

(** Each state of the list follows from the one before it. *)
Fixpoint chain {S : Type} (step : S -> S -> Prop) (st : S) (l : list S) : Prop :=
  match l with
  | [] => True
  | x :: rest => step st x /\ chain step x rest
  end.

(** ** Samples per band *)

(** [sum(1 for s in samples if s.distance_band == name)]. *)
Definition band_count (samples : list GroundTruthSample) (band : string) : nat :=
  length (List.filter (fun s => String.eqb (distance_band s) band) samples).

Definition band_names : list string := map fst DISTANCE_BANDS.

(** ** What the generator emits *)

(** The simulated spread around [d]: the low end and the high end. *)
Definition low_of (d u w : Q) : Q := fl64 (d - fl64 (fl64 (d * u) * w)).
Definition high_of (d u w : Q) : Q := fl64 (d + fl64 (fl64 (d * u) * w)).

(** The shape of a sample built by one of the generator's loops: the
    distance [d] it was drawn for, the spread factor [u], and the
    numbers its [frame_id] was formatted from. *)
Inductive synthetic_sample (s : GroundTruthSample) : Prop :=
  | ark_like (d u : Q) (scene_num frame_num : Z) :
      classify_distance (FFin d) = Some (distance_band s) ->
      0 <= u ->
      ground_truth_center_m s = py_round d 4 ->
      ground_truth_p25_m s = Some (round4_max (lit (3 # 10)) (low_of d u (lit (4 # 10)))) ->
      ground_truth_p75_m s = Some (np_round (high_of d u (lit (6 # 10))) 4) ->
      frame_id s = synthetic_ark_frame_id scene_num frame_num ->
      synthetic_sample s
  | diode_like (env : string) (floor w_lo w_hi d u : Q) (scene_num scan_num frame_num : Z) :
      classify_distance (FFin d) = Some (distance_band s) ->
      0 <= u -> 0 <= w_lo -> 0 <= w_hi -> floor <= 1 # 2 ->
      env = "indoor"%string \/ env = "outdoor"%string ->
      ground_truth_center_m s = py_round d 4 ->
      ground_truth_p25_m s = Some (round4_max floor (low_of d u w_lo)) ->
      ground_truth_p75_m s = Some (np_round (high_of d u w_hi) 4) ->
      frame_id s = synthetic_diode_frame_id env scene_num scan_num frame_num ->
      synthetic_sample s
  | fill_like (ds env : string) (lo hi d u : Q) (scene_num scan_num frame_num : Z) :
      In (distance_band s, (lo, hi)) DISTANCE_BANDS ->
      lo <= d -> d <= hi -> 0 <= u ->
      ds = "arkitscenes"%string \/ ds = "diode"%string ->
      env = "indoor"%string \/ env = "outdoor"%string ->
      ground_truth_center_m s = py_round d 4 ->
      ground_truth_p25_m s =
        Some (py_round (py_max (lit (3 # 10)) (low_of d u (lit (4 # 10)))) 4) ->
      ground_truth_p75_m s = Some (py_round (high_of d u (lit (6 # 10))) 4) ->
      frame_id s = fill_frame_id ds env scene_num scan_num frame_num ->
      synthetic_sample s.

Section GeneratorVocabulary.

Context (R : RandomSource).

(** One loop iteration: nothing, or one sample of the generator's shape,
    admitted under the quota. *)
Definition emits (st st' : gen_state R) : Prop :=
  (g_samples R st' = g_samples R st /\ g_counts R st' = g_counts R st) \/
  exists s,
    synthetic_sample s /\
    (count (g_counts R st) (distance_band s) < target (distance_band s))%nat /\
    g_samples R st' = g_samples R st ++ [s] /\
    g_counts R st' = bump (g_counts R st) (distance_band s).

(** The loop invariant of the generator: no band above its target, the
    counts are the per-band numbers of samples, and every sample has the
    generator's shape. *)
Definition gen_inv (st : gen_state R) : Prop :=
  quota_ok (g_counts R st) /\
  (forall band, count (g_counts R st) band = band_count (g_samples R st) band) /\
  Forall synthetic_sample (g_samples R st).

End GeneratorVocabulary.

(** ** Ordering *)

(** [l] is in ascending order. *)
Fixpoint ascending (l : list Q) : Prop :=
  match l with
  | [] => True
  | x :: rest => (forall y, In y rest -> x <= y) /\ ascending rest
  end.

(** P25 and P75 of a sample are in order when both are present. *)
Definition spread_ordered (s : GroundTruthSample) : Prop :=
  forall p25 p75,
    ground_truth_p25_m s = Some p25 -> ground_truth_p75_m s = Some p75 ->
    p25 <= p75.

(** ** Where a sample comes from *)

(** A sample accepted by one of the two adapters. *)
Definition real_sample (s : GroundTruthSample) : Prop :=
  (exists tier bc c, snd (offer_diode tier bc c) = Accepted s) \/
  (exists tier bc c, snd (offer_arkitscenes tier bc c) = Accepted s).

(** ** Frame identifiers *)

Definition digit (c : ascii) : bool :=
  match c with
  | "0" | "1" | "2" | "3" | "4" | "5" | "6" | "7" | "8" | "9" => true
  | _ => false
  end%char.

(** A character a formatted number can hold. *)
Definition numeric (c : ascii) : bool := digit c || Ascii.eqb c "-".

Fixpoint all_chars (P : ascii -> bool) (s : string) : bool :=
  match s with
  | EmptyString => true
  | String c rest => P c && all_chars P rest
  end.

(** The identifiers a synthetic [frame_id] is formatted from. *)
Inductive synthetic_id : Type :=
  | ArkId (scene_num frame_num : Z)
  | DiodeId (env : string) (scene_num scan_num frame_num : Z)
  | FillId (ds env : string) (scene_num scan_num frame_num : Z).

Definition id_string (i : synthetic_id) : string :=
  match i with
  | ArkId scene_num frame_num => synthetic_ark_frame_id scene_num frame_num
  | DiodeId env scene_num scan_num frame_num =>
      synthetic_diode_frame_id env scene_num scan_num frame_num
  | FillId ds env scene_num scan_num frame_num =>
      fill_frame_id ds env scene_num scan_num frame_num
  end.

Definition is_env (e : string) : Prop := e = "indoor"%string \/ e = "outdoor"%string.
Definition is_dataset (d : string) : Prop :=
  d = "arkitscenes"%string \/ d = "diode"%string.

(** The tags are those the generator writes. *)
Definition well_tagged (i : synthetic_id) : Prop :=
  match i with
  | ArkId _ _ => True
  | DiodeId env _ _ _ => is_env env
  | FillId ds env _ _ _ => is_dataset ds /\ is_env env
  end.

(** The first two samples of a list have the same [frame_id]. *)
Definition first_two_share_id (samples : list GroundTruthSample) : bool :=
  match samples with
  | s1 :: s2 :: _ => String.eqb (frame_id s1) (frame_id s2)
  | _ => false
  end.

(** ** Concrete inputs *)

(** The simplest random source meeting the contracts: every draw is the
    low end of its range, [lognormal] returns its median [size] times,
    and [shuffle] leaves the list as it is. *)
Definition low_uniform (a b : Q) (s : unit) : Q * unit := (a, s).
Definition low_randint (a b : Z) (s : unit) : Z * unit := (a, s).
Definition low_randbelow (n : nat) (s : unit) : nat * unit := (0%nat, s).
Definition low_shuffle (A : Type) (l : list A) (s : unit) : list A * unit := (l, s).
Definition low_lognormal (c sigma : Q) (size : Z) (s : unit) : list Q * unit :=
  (repeat c (Z.to_nat size), s).
Definition low_normal (mu sigma : Q) (s : unit) : Q * unit := (mu, s).

Definition low_source : RandomSource :=
  {| rng_state := unit;
     np_state := unit;
     Random := fun _ => tt;
     RandomState := fun _ => tt;
     rng_random := fun s => (0, s);
     rng_uniform := low_uniform;
     rng_randint := low_randint;
     rng_randbelow := low_randbelow;
     rng_shuffle := low_shuffle;
     np_lognormal := low_lognormal;
     np_normal := low_normal;
     rng_uniform_range := fun a b s H => conj (Qle_refl a) H;
     rng_randint_range := fun a b s H => conj (Z.le_refl a) H;
     rng_randbelow_lt := fun n s H => H;
     rng_shuffle_perm := fun A l s => Permutation_refl l |}.

(** A random source whose [uniform] returns the upper end of its range
    (which [random.uniform] documents as possible). *)
Definition top_uniform (a b : Q) (s : unit) : Q * unit := (b, s).

Definition top_source : RandomSource :=
  {| rng_state := unit;
     np_state := unit;
     Random := fun _ => tt;
     RandomState := fun _ => tt;
     rng_random := fun s => (0, s);
     rng_uniform := top_uniform;
     rng_randint := low_randint;
     rng_randbelow := low_randbelow;
     rng_shuffle := low_shuffle;
     np_lognormal := low_lognormal;
     np_normal := low_normal;
     rng_uniform_range := fun a b s H => conj H (Qle_refl b);
     rng_randint_range := fun a b s H => conj (Z.le_refl a) H;
     rng_randbelow_lt := fun n s H => H;
     rng_shuffle_perm := fun A l s => Permutation_refl l |}.

(** A map of [h] rows and [w] columns, all 5.0 m except [hole] at the
    exact centre. *)
Definition hole_map (h w : nat) (hole : fval) : depth_map :=
  map (fun i => map (fun j => if (i =? h / 2)%nat && (j =? w / 2)%nat
                              then hole else FFin 5)
                    (seq 0 w))
      (seq 0 h).

(** A 20 x 20 map whose depth grows along both axes. *)
Definition ramp_map : depth_map :=
  map (fun i => map (fun j => FFin (inject_Z (Z.of_nat (i + j + 1)))) (seq 0 20))
      (seq 0 20).

(** A 5 x 5 map, every pixel 5.0 m. *)
Definition flat_map_5 : depth_map := repeat (repeat (FFin 5) 5) 5.

(** Two frames with the same environment, scene, scan and file names,
    one under [val] and one under [train]. *)
Definition twin_tree : diode_tree :=
  let scene : diode_scene :=
    ("scene_00001"%string,
     [("scan_00001"%string, [mkDiodeFrame "00001" flat_map_5 None false])]) in
  [ ("val"%string, [("indoor"%string, [scene])]);
    ("train"%string, [("indoor"%string, [scene])]) ].

(** A DIODE frame of 5 x 5 pixels, all 2.99996 m. *)
Definition edge_candidate : diode_candidate :=
  mkDiodeCandidate "indoor" "scene_00001" "scan_00001"
    (mkDiodeFrame "00001" (repeat (repeat (FFin (299996 # 100000)) 5) 5) None false).

(** ** The summary printed by the driver *)




(** ** Accumulation *)




(** ** The samples of the generator, by the loop that builds them *)










Section GeneratorSteps.

Context (R : RandomSource).


End GeneratorSteps.






(* ================================================================== *)
(** * Part III: proofs                                                 *)
(* ================================================================== *)

(** ** Rounding is monotone *)

Lemma rne_floor_bounds q : (Qfloor q <= rne q <= Qfloor q + 1)%Z.
Proof.
  unfold rne. destruct (Qcompare _ _); [destruct (Z.even _)|..]; lia.
Qed.

Lemma rne_inject_Z z : rne (inject_Z z) = z.
Proof.
  unfold rne. rewrite Qfloor_Z.
  destruct (Qcompare_spec (inject_Z z - inject_Z z) (1 # 2)) as [H|H|H];
    [exfalso; lra|reflexivity|exfalso; lra].
Qed.

Lemma rne_mono q1 q2 : q1 <= q2 -> (rne q1 <= rne q2)%Z.
Proof.
  intros Hle.
  pose proof (Qfloor_resp_le _ _ Hle) as Hf.
  destruct (Z.eq_dec (Qfloor q1) (Qfloor q2)) as [E|N].
  - unfold rne. rewrite E.
    destruct (Qcompare_spec (q1 - inject_Z (Qfloor q2)) (1 # 2)) as [H1|H1|H1];
    destruct (Qcompare_spec (q2 - inject_Z (Qfloor q2)) (1 # 2)) as [H2|H2|H2];
    try destruct (Z.even _); try lia; exfalso; lra.
  - pose proof (rne_floor_bounds q1). pose proof (rne_floor_bounds q2). lia.
Qed.

Lemma rne_comp q1 q2 : q1 == q2 -> rne q1 = rne q2.
Proof.
  intros E. apply Z.le_antisymm; apply rne_mono; lra.
Qed.

Lemma pow2_pos e : 0 < 2 ^ e.
Proof. apply Qpower_0_lt. lra. Qed.

Lemma pow2_add a b : 2 ^ (a + b) == 2 ^ a * 2 ^ b.
Proof. apply Qpower_plus. lra. Qed.

Lemma pow2_succ a : 2 ^ (a + 1) == 2 * 2 ^ a.
Proof. rewrite pow2_add. simpl. lra. Qed.

Lemma pow2_inject (n : Z) : (0 <= n)%Z -> inject_Z (2 ^ n) == 2 ^ n.
Proof. intros. now rewrite Zpower_Qpower. Qed.

Lemma ilog2_spec q : 0 < q -> 2 ^ ilog2 q <= q /\ q < 2 ^ (ilog2 q + 1).
Proof.
  intros Hq. unfold ilog2.
  destruct q as [n d]. cbn [Qnum Qden].
  assert (Hn : (0 < n)%Z) by (unfold Qlt in Hq; cbn in Hq; lia).
  set (a := Z.log2 n). set (b := Z.log2 (Z.pos d)).
  destruct (Z.log2_spec n Hn) as [Ha1 Ha2].
  destruct (Z.log2_spec (Z.pos d) (Pos2Z.is_pos d)) as [Hb1 Hb2].
  fold a in Ha1, Ha2. fold b in Hb1, Hb2.
  assert (Ha0 : (0 <= a)%Z) by apply Z.log2_nonneg.
  assert (Hb0 : (0 <= b)%Z) by apply Z.log2_nonneg.
  assert (Qa1 : 2 ^ a <= inject_Z n).
  { rewrite <- pow2_inject by lia. rewrite <- Zle_Qle. exact Ha1. }
  assert (Qa2 : inject_Z n < 2 * 2 ^ a).
  { rewrite <- pow2_succ, <- pow2_inject by lia. rewrite <- Zlt_Qlt. now rewrite Z.add_1_r. }
  assert (Qb1 : 2 ^ b <= inject_Z (Z.pos d)).
  { rewrite <- pow2_inject by lia. rewrite <- Zle_Qle. exact Hb1. }
  assert (Qb2 : inject_Z (Z.pos d) < 2 * 2 ^ b).
  { rewrite <- pow2_succ, <- pow2_inject by lia. rewrite <- Zlt_Qlt. now rewrite Z.add_1_r. }
  assert (Hq' : n # d == inject_Z n / inject_Z (Z.pos d)) by apply Qmake_Qdiv.
  assert (Hd : 0 < inject_Z (Z.pos d)) by (rewrite <- (Zlt_Qlt 0); lia).
  pose proof (pow2_pos a) as Pa. pose proof (pow2_pos b) as Pb.
  pose proof (pow2_pos (a - b)) as Pab.
  pose proof (pow2_pos (a - b - 1)) as Pab1.
  assert (Eab : 2 ^ a == 2 ^ (a - b) * 2 ^ b).
  { rewrite <- pow2_add. now replace (a - b + b)%Z with a by lia. }
  assert (Eab1 : 2 ^ (a - b) == 2 * 2 ^ (a - b - 1)).
  { rewrite <- pow2_succ. now replace (a - b - 1 + 1)%Z with (a - b)%Z by lia. }
  assert (Eab2 : 2 ^ a == 2 * 2 ^ (a - b - 1) * 2 ^ b) by (rewrite Eab, Eab1; ring).
  set (x := inject_Z n) in *. set (y := inject_Z (Z.pos d)) in *.
  assert (Hx : (n # d) * y == x).
  { rewrite Hq'. field. lra. }
  destruct (Qle_bool (2 ^ (a - b)) (n # d)) eqn:Hc.
  - apply Qle_bool_iff in Hc. split; [exact Hc|].
    rewrite pow2_succ.
    apply Qnot_le_lt. intros Hge.
    assert (2 * 2 ^ (a - b) * y <= (n # d) * y) by (apply Qmult_le_compat_r; lra).
    assert (2 * 2 ^ (a - b) * 2 ^ b <= 2 * 2 ^ (a - b) * y)
      by (rewrite !(Qmult_comm (2 * 2 ^ (a - b))); apply Qmult_le_compat_r; lra).
    lra.
  - assert (Hlt : n # d < 2 ^ (a - b)).
    { apply Qnot_le_lt. intros Hge. apply Qle_bool_iff in Hge. congruence. }
    replace (a - b - 1 + 1)%Z with (a - b)%Z by lia. split; [|exact Hlt].
    apply Qnot_lt_le. intros Hlt2.
    assert ((n # d) * y < 2 ^ (a - b - 1) * y) by (apply Qmult_lt_compat_r; lra).
    assert (2 ^ (a - b - 1) * y <= 2 ^ (a - b - 1) * (2 * 2 ^ b))
      by (rewrite !(Qmult_comm (2 ^ (a - b - 1))); apply Qmult_le_compat_r; lra).
    lra.
Qed.

Lemma ilog2_mono q1 q2 : 0 < q1 -> q1 <= q2 -> (ilog2 q1 <= ilog2 q2)%Z.
Proof.
  intros H1 H12.
  destruct (ilog2_spec q1 H1) as [A _].
  destruct (ilog2_spec q2) as [_ B]; [lra|].
  assert (L : 2 ^ ilog2 q1 < 2 ^ (ilog2 q2 + 1)) by lra.
  apply Qpower_lt_compat_l_inv in L; [lia|lra].
Qed.

Lemma round_pos_bounds p q :
  (1 <= p)%Z -> 0 < q ->
  2 ^ ilog2 q <= round_pos p q /\ round_pos p q <= 2 ^ (ilog2 q + 1).
Proof.
  intros Hp Hq. unfold round_pos.
  destruct (ilog2_spec q Hq) as [A B].
  set (e := ilog2 q) in *. set (s := 2 ^ (e - p + 1)).
  assert (Ps : 0 < s) by apply pow2_pos.
  assert (E1 : 2 ^ e == inject_Z (2 ^ (p - 1)) * s).
  { rewrite pow2_inject by lia. unfold s. rewrite <- pow2_add.
    now replace (p - 1 + (e - p + 1))%Z with e by lia. }
  assert (E2 : 2 ^ (e + 1) == inject_Z (2 ^ p) * s).
  { rewrite pow2_inject by lia. unfold s. rewrite <- pow2_add.
    now replace (p + (e - p + 1))%Z with (e + 1)%Z by lia. }
  assert (L1 : inject_Z (2 ^ (p - 1)) <= q / s).
  { apply Qle_shift_div_l; lra. }
  assert (L2 : q / s <= inject_Z (2 ^ p)).
  { apply Qle_shift_div_r; lra. }
  apply rne_mono in L1, L2. rewrite rne_inject_Z in L1, L2.
  rewrite Zle_Qle in L1, L2.
  rewrite E1, E2. split; apply Qmult_le_compat_r; lra.
Qed.

Lemma round_pos_mono p q1 q2 :
  (1 <= p)%Z -> 0 < q1 -> q1 <= q2 -> round_pos p q1 <= round_pos p q2.
Proof.
  intros Hp H1 H12.
  pose proof (ilog2_mono _ _ H1 H12) as He.
  destruct (Z.eq_dec (ilog2 q1) (ilog2 q2)) as [E|N].
  - unfold round_pos. rewrite E.
    set (s := 2 ^ (ilog2 q2 - p + 1)).
    assert (Ps : 0 < s) by apply pow2_pos.
    apply Qmult_le_compat_r; [|lra].
    rewrite <- Zle_Qle. apply rne_mono.
    apply Qle_shift_div_l; [lra|].
    assert ((q1 / s) * s == q1) by (field; lra). lra.
  - destruct (round_pos_bounds p q1 Hp H1) as [_ U].
    destruct (round_pos_bounds p q2 Hp) as [L _]; [lra|].
    assert (2 ^ (ilog2 q1 + 1) <= 2 ^ ilog2 q2)
      by (apply Qpower_le_compat_l; [lia|lra]).
    lra.
Qed.

Lemma round_pos_pos p q : (1 <= p)%Z -> 0 < q -> 0 < round_pos p q.
Proof.
  intros Hp Hq. destruct (round_pos_bounds p q Hp Hq) as [L _].
  pose proof (pow2_pos (ilog2 q)). lra.
Qed.

Lemma round_prec_mono p q1 q2 :
  (1 <= p)%Z -> q1 <= q2 -> round_prec p q1 <= round_prec p q2.
Proof.
  intros Hp H12. unfold round_prec.
  destruct (Qcompare_spec q1 0) as [A|A|A];
  destruct (Qcompare_spec q2 0) as [B|B|B]; try lra;
  rewrite ?Qred_correct.
  - pose proof (round_pos_pos p q2 Hp B). lra.
  - assert (0 < round_pos p (- q1)) by (apply round_pos_pos; [exact Hp|lra]). lra.
  - assert (round_pos p (- q2) <= round_pos p (- q1))
      by (apply round_pos_mono; [exact Hp|lra|lra]). lra.
  - assert (0 < round_pos p (- q1)) by (apply round_pos_pos; [exact Hp|lra]).
    pose proof (round_pos_pos p q2 Hp B). lra.
  - now apply round_pos_mono.
Qed.

Lemma round_prec_comp p q1 q2 :
  (1 <= p)%Z -> q1 == q2 -> round_prec p q1 = round_prec p q2.
Proof.
  intros Hp E.
  assert (Q : round_prec p q1 == round_prec p q2).
  { apply Qle_antisym; apply round_prec_mono; auto; lra. }
  unfold round_prec in *.
  destruct (Qcompare_spec q1 0); destruct (Qcompare_spec q2 0);
    try (exfalso; lra); auto;
    rewrite !Qred_correct in Q; now apply Qred_complete.
Qed.

Lemma round_prec_nonneg p q : (1 <= p)%Z -> 0 <= q -> 0 <= round_prec p q.
Proof.
  intros Hp Hq. change 0 with (round_prec p 0) at 1. now apply round_prec_mono.
Qed.

Lemma fl64_mono (a b : Q) : a <= b -> fl64 a <= fl64 b.
Proof. apply round_prec_mono. lia. Qed.

Lemma fl64_nonneg (a : Q) : 0 <= a -> 0 <= fl64 a.
Proof. apply round_prec_nonneg. lia. Qed.

Lemma fl64_comp (a b : Q) : a == b -> fl64 a = fl64 b.
Proof. apply round_prec_comp. lia. Qed.

Lemma scaled_rne_mono (ndigits : Z) (a b : Q) :
  a <= b ->
  inject_Z (rne (a * 10 ^ ndigits)) / 10 ^ ndigits
    <= inject_Z (rne (b * 10 ^ ndigits)) / 10 ^ ndigits.
Proof.
  intros H.
  assert (P : 0 < 10 ^ ndigits) by (apply Qpower_0_lt; reflexivity).
  apply Qle_shift_div_l; [exact P|].
  assert (E : inject_Z (rne (a * 10 ^ ndigits)) / 10 ^ ndigits * 10 ^ ndigits
              == inject_Z (rne (a * 10 ^ ndigits))) by (field; lra).
  rewrite E. rewrite <- Zle_Qle. apply rne_mono.
  apply Qmult_le_compat_r; lra.
Qed.

Lemma py_round_mono (ndigits : Z) (a b : Q) :
  a <= b -> py_round a ndigits <= py_round b ndigits.
Proof.
  intros H. unfold py_round. apply fl64_mono. now apply scaled_rne_mono.
Qed.

Lemma np_round_mono (ndigits : Z) (a b : Q) :
  a <= b -> np_round a ndigits <= np_round b ndigits.
Proof.
  intros H. unfold np_round. apply fl64_mono.
  assert (P : 0 < 10 ^ ndigits) by (apply Qpower_0_lt; reflexivity).
  apply Qle_shift_div_l; [exact P|].
  assert (E : inject_Z (rne (fl64 (a * 10 ^ ndigits))) / 10 ^ ndigits * 10 ^ ndigits
              == inject_Z (rne (fl64 (a * 10 ^ ndigits)))) by (field; lra).
  rewrite E. rewrite <- Zle_Qle. apply rne_mono, fl64_mono.
  apply Qmult_le_compat_r; lra.
Qed.

(** ** Comparisons *)

Lemma Qlt_b_true (a b : Q) : Qlt_b a b = true <-> a < b.
Proof.
  unfold Qlt_b. rewrite negb_true_iff. split.
  - intros H. apply Qnot_le_lt. intros L. apply Qle_bool_iff in L. congruence.
  - intros H. destruct (Qle_bool b a) eqn:E; [|reflexivity].
    apply Qle_bool_iff in E. exfalso. lra.
Qed.

Lemma Qlt_b_false (a b : Q) : Qlt_b a b = false <-> b <= a.
Proof.
  unfold Qlt_b. rewrite negb_false_iff. apply Qle_bool_iff.
Qed.

Lemma Qle_bool_false (a b : Q) : Qle_bool a b = false <-> b < a.
Proof.
  rewrite <- Qlt_b_true. unfold Qlt_b. now rewrite negb_true_iff.
Qed.

Lemma in_band_fin (q lo hi : Q) :
  in_band (FFin q) lo hi = true <-> lo <= q /\ q < hi.
Proof.
  unfold in_band. cbn. rewrite andb_true_iff, Qle_bool_iff, Qlt_b_true. tauto.
Qed.

Lemma in_band_finite (d : fval) (lo hi : Q) :
  in_band d lo hi = true -> exists q, d = FFin q.
Proof.
  unfold in_band. destruct d as [|[]|q]; cbn; try discriminate.
  intros _. now exists q.
Qed.

(** Reflect every boolean comparison of the context into [Q]. *)
Ltac reflect_cmp :=
  repeat match goal with
  | H : Qle_bool _ _ = true |- _ => apply Qle_bool_iff in H
  | H : Qle_bool _ _ = false |- _ => apply Qle_bool_false in H
  | H : Qlt_b _ _ = true |- _ => apply Qlt_b_true in H
  | H : Qlt_b _ _ = false |- _ => apply Qlt_b_false in H
  | H : in_band (FFin _) _ _ = true |- _ => apply in_band_fin in H; destruct H
  end.

(** Decide the comparisons of the goal that the context settles. *)
Ltac decide_cmp :=
  repeat match goal with
  | |- context [Qle_bool ?a ?b] =>
      first [ rewrite (proj2 (Qle_bool_iff a b)) by lra
            | rewrite (proj2 (Qle_bool_false a b)) by lra ]
  | |- context [Qlt_b ?a ?b] =>
      first [ rewrite (proj2 (Qlt_b_true a b)) by lra
            | rewrite (proj2 (Qlt_b_false a b)) by lra ]
  end.

(** ** Band classification *)

(** What [classify_distance] answers on a finite distance, band by band. *)
Lemma classify_distance_fin (q : Q) :
  classify_distance (FFin q) =
    if Qlt_b q (1 # 2) then None
    else if Qlt_b q 3 then Some "close"%string
    else if Qlt_b q 8 then Some "near_mid"%string
    else if Qlt_b q 15 then Some "mid"%string
    else if Qlt_b q 50 then Some "far_mid"%string
    else if Qlt_b q 150 then Some "far"%string
    else if Qlt_b q 350 then Some "long"%string
    else None.
Proof.
  unfold classify_distance, DISTANCE_BANDS, classify_in, in_band. cbn [fle_b flt_b].
  repeat match goal with
  | |- context [if Qlt_b q ?b then _ else _] =>
      destruct (Qlt_b q b) eqn:?; reflect_cmp
  end;
  decide_cmp; reflexivity.
Qed.

Lemma classify_distance_Some (d : fval) (band : string) :
  classify_distance d = Some band ->
  exists q lo hi, d = FFin q /\ In (band, (lo, hi)) DISTANCE_BANDS /\ lo <= q /\ q < hi.
Proof.
  destruct d as [|s|q].
  - discriminate.
  - destruct s; discriminate.
  - rewrite classify_distance_fin. intros H. exists q.
    repeat match type of H with
    | (if Qlt_b ?a ?b then _ else _) = _ => destruct (Qlt_b a b) eqn:?
    end; inversion H; subst; reflect_cmp;
    [ exists (1 # 2), 3 | exists 3, 8 | exists 8, 15 | exists 15, 50
    | exists 50, 150 | exists 150, 350 ];
    (split; [reflexivity|]); (split; [cbn; tauto|]); split; lra.
Qed.

Lemma classify_distance_None_out (d : fval) :
  flt_b d (FFin (1 # 2)) = true \/ fle_b (FFin 350) d = true ->
  classify_distance d = None.
Proof.
  intros H. destruct d as [|[]|q]; try reflexivity.
  rewrite classify_distance_fin.
  cbn [flt_b fle_b] in H. destruct H as [H|H]; reflect_cmp; decide_cmp; reflexivity.
Qed.

Lemma in_range_finite (d : fval) :
  fle_b (FFin (1 # 2)) d = true -> flt_b d (FFin 350) = true ->
  exists q, d = FFin q /\ 1 # 2 <= q /\ q < 350.
Proof.
  destruct d as [|[]|q]; cbn; try discriminate.
  intros. reflect_cmp. now exists q.
Qed.

Lemma band_of_table (band : string) (lo hi : Q) :
  In (band, (lo, hi)) DISTANCE_BANDS ->
  (band, (lo, hi)) = ("close"%string, (1 # 2, 3)) \/
  (band, (lo, hi)) = ("near_mid"%string, (3, 8)) \/
  (band, (lo, hi)) = ("mid"%string, (8, 15)) \/
  (band, (lo, hi)) = ("far_mid"%string, (15, 50)) \/
  (band, (lo, hi)) = ("far"%string, (50, 150)) \/
  (band, (lo, hi)) = ("long"%string, (150, 350)).
Proof.
  cbn. intuition congruence.
Qed.

(** C3.  Within [0.5, 350) exactly one band of the table contains the
    distance and [classify_distance] returns it; the six bands are the
    half-open intervals close [0.5,3), near_mid [3,8), mid [8,15),
    far_mid [15,50), far [50,150), long [150,350), a low edge belonging
    to the band that starts there; below 0.5 and from 350.0 on
    (infinities included) the answer is [None], in particular at 0.4999
    and at 350.0. *)
Theorem classify_distance_partition :
  (forall d : fval,
     fle_b (FFin (1 # 2)) d = true -> flt_b d (FFin 350) = true ->
     exists band lo hi,
       classify_distance d = Some band /\
       In (band, (lo, hi)) DISTANCE_BANDS /\
       in_band d lo hi = true /\
       forall band' lo' hi',
         In (band', (lo', hi')) DISTANCE_BANDS -> in_band d lo' hi' = true ->
         (band', (lo', hi')) = (band, (lo, hi))) /\
  (forall (q : Q) (band : string),
     classify_distance (FFin q) = Some band <->
     exists lo hi,
       In (band, (lo, hi))
          [ ("close"%string, (1 # 2, 3)); ("near_mid"%string, (3, 8));
            ("mid"%string, (8, 15)); ("far_mid"%string, (15, 50));
            ("far"%string, (50, 150)); ("long"%string, (150, 350)) ] /\
       lo <= q /\ q < hi) /\
  (forall d : fval,
     flt_b d (FFin (1 # 2)) = true \/ fle_b (FFin 350) d = true ->
     classify_distance d = None) /\
  classify_distance (FFin (lit (4999 # 10000))) = None /\
  classify_distance (FFin (lit 350)) = None /\
  classify_distance FNaN = None.
Proof.
  assert (Hfwd : forall q band lo hi,
             In (band, (lo, hi)) DISTANCE_BANDS -> lo <= q -> q < hi ->
             classify_distance (FFin q) = Some band).
  { intros q band lo hi Hin Hlo Hhi. rewrite classify_distance_fin.
    apply band_of_table in Hin.
    repeat destruct Hin as [Hin|Hin]; inversion Hin; subst;
      decide_cmp; reflexivity. }
  split; [|split; [|split; [|split; [|split]]]].
  - intros d Hlo Hhi.
    destruct (in_range_finite d Hlo Hhi) as (q & -> & H1 & H2).
    destruct (classify_distance (FFin q)) as [band|] eqn:Hc.
    + destruct (classify_distance_Some _ _ Hc) as (q' & lo & hi & Hq & Hin & L & U).
      inversion Hq; subst q'.
      exists band, lo, hi. split; [reflexivity|]. split; [exact Hin|].
      split; [apply in_band_fin; now split|].
      intros band' lo' hi' Hin' Hb'. reflect_cmp.
      apply band_of_table in Hin, Hin'.
      repeat destruct Hin as [Hin|Hin]; inversion Hin; subst;
      repeat destruct Hin' as [Hin'|Hin']; inversion Hin'; subst;
        try reflexivity; exfalso; lra.
    + exfalso. rewrite classify_distance_fin in Hc.
      revert Hc. decide_cmp.
      repeat match goal with
      | |- context [if Qlt_b q ?b then _ else _] =>
          destruct (Qlt_b q b) eqn:?; reflect_cmp
      end; try discriminate; lra.
  - intros q band. split.
    + intros Hc. destruct (classify_distance_Some _ _ Hc) as (q' & lo & hi & Hq & Hin & L & U).
      inversion Hq; subst q'. now exists lo, hi.
    + intros (lo & hi & Hin & L & U). now apply (Hfwd q band lo hi).
  - exact classify_distance_None_out.
  - vm_compute. reflexivity.
  - vm_compute. reflexivity.
  - reflexivity.
Qed.

(** C3 at 5.0 m: in range, classified, and only near_mid contains it. *)
Lemma classify_distance_partition_witness :
  exists band lo hi,
    classify_distance (FFin 5) = Some band /\
    In (band, (lo, hi)) DISTANCE_BANDS /\
    in_band (FFin 5) lo hi = true /\
    forall band' lo' hi',
      In (band', (lo', hi')) DISTANCE_BANDS -> in_band (FFin 5) lo' hi' = true ->
      (band', (lo', hi')) = (band, (lo, hi)).
Proof.
  exact (proj1 classify_distance_partition (FFin 5) eq_refl eq_refl).
Defined.

(** ** Slices *)

Lemma slice_bound_in_range (i : Z) (len : nat) :
  (0 <= i <= Z.of_nat len)%Z -> slice_bound i len = Z.to_nat i.
Proof.
  intros H. unfold slice_bound.
  destruct (Z.ltb_spec i 0); [lia|]. f_equal. lia.
Qed.

Lemma slice_bound_le (i : Z) (len : nat) : (slice_bound i len <= len)%nat.
Proof.
  unfold slice_bound. destruct (Z.ltb_spec i 0); lia.
Qed.

Lemma skipn_cons_nth {A : Type} (d : A) (l : list A) (a : nat) :
  (a < length l)%nat -> skipn a l = nth a l d :: skipn (S a) l.
Proof.
  revert a. induction l as [|x l IH]; intros a H; cbn in H; [lia|].
  destruct a as [|a]; [reflexivity|].
  cbn [skipn nth]. apply IH. lia.
Qed.

Lemma firstn_skipn_nth {A : Type} (d : A) (l : list A) (k a : nat) :
  (a + k <= length l)%nat ->
  firstn k (skipn a l) = map (fun i => nth i l d) (seq a k).
Proof.
  revert a. induction k as [|k IH]; intros a H; [reflexivity|].
  rewrite (skipn_cons_nth d) by lia. cbn [firstn seq map]. f_equal.
  apply IH. lia.
Qed.

(** A slice lists the elements at the indices between its two clipped
    bounds. *)
Lemma py_slice_nth {A : Type} (d : A) (lo hi : Z) (l : list A) :
  py_slice lo hi l =
    map (fun i => nth i l d)
        (seq (slice_bound lo (length l))
             (slice_bound hi (length l) - slice_bound lo (length l))).
Proof.
  unfold py_slice. apply firstn_skipn_nth.
  pose proof (slice_bound_le lo (length l)).
  pose proof (slice_bound_le hi (length l)). lia.
Qed.

Lemma py_slice_length {A : Type} (lo hi : Z) (l : list A) :
  length (py_slice lo hi l) =
    (slice_bound hi (length l) - slice_bound lo (length l))%nat.
Proof.
  destruct l as [|d l'].
  - unfold py_slice. rewrite skipn_nil, firstn_nil.
    pose proof (slice_bound_le hi (@length A [])). cbn in *. lia.
  - rewrite (py_slice_nth d). now rewrite length_map, length_seq.
Qed.

(** The pixels of a 2-D slice of a rectangular map, in row-major order. *)
Lemma slice2_pixels (m : depth_map) (y0 y1 x0 x1 : Z) :
  rectangular m ->
  slice2 y0 y1 x0 x1 m =
    map (fun i => map (fun j => pixel m i j)
                      (seq (slice_bound x0 (width m))
                           (slice_bound x1 (width m) - slice_bound x0 (width m))))
        (seq (slice_bound y0 (height m))
             (slice_bound y1 (height m) - slice_bound y0 (height m))).
Proof.
  intros Hrect. unfold slice2, height.
  rewrite (py_slice_nth [] y0 y1 m), map_map.
  apply map_ext_in. intros i Hi. apply in_seq in Hi.
  assert (Hlen : length (nth i m []) = width m).
  { pose proof (slice_bound_le y1 (length m)).
    unfold rectangular in Hrect. rewrite List.Forall_forall in Hrect.
    apply Hrect. apply nth_In. lia. }
  rewrite (py_slice_nth FNaN x0 x1), Hlen. reflexivity.
Qed.

(** The indices a window keeps are a segment. *)
Lemma filter_seq_segment (lo hi a n : nat) :
  List.filter (fun i => (lo <=? i)%nat && (i <? hi)%nat) (seq a n) =
    seq (Nat.max a lo) (Nat.min (a + n) hi - Nat.max a lo).
Proof.
  revert a. induction n as [|n IH]; intros a.
  - cbn [seq List.filter]. replace (Nat.min (a + 0) hi - Nat.max a lo)%nat with 0%nat by lia.
    reflexivity.
  - cbn [seq List.filter]. rewrite IH.
    destruct (Nat.leb_spec lo a); destruct (Nat.ltb_spec a hi); cbn [andb].
    + replace (Nat.max a lo) with a by lia.
      replace (Nat.max (S a) lo) with (S a) by lia.
      replace (Nat.min (a + S n) hi - a)%nat
        with (S (Nat.min (S a + n) hi - S a)) by lia.
      reflexivity.
    + replace (Nat.min (S a + n) hi - Nat.max (S a) lo)%nat with 0%nat by lia.
      replace (Nat.min (a + S n) hi - Nat.max a lo)%nat with 0%nat by lia.
      reflexivity.
    + replace (Nat.max (S a) lo) with (Nat.max a lo) by lia.
      replace (Nat.min (S a + n) hi) with (Nat.min (a + S n) hi) by lia.
      reflexivity.
    + replace (Nat.min (S a + n) hi - Nat.max (S a) lo)%nat with 0%nat by lia.
      replace (Nat.min (a + S n) hi - Nat.max a lo)%nat with 0%nat by lia.
      reflexivity.
Qed.

(** ** The centre estimate as the specification words it *)

Lemma spec_window_segment (n : nat) (r : Z) :
  (0 <= r)%Z ->
  let c := (Z.of_nat n / 2)%Z in
  spec_window c r n =
    seq (slice_bound (Z.max 0 (c - r)) n)
        (slice_bound (Z.min (Z.of_nat n) (c + r + 1)) n - slice_bound (Z.max 0 (c - r)) n).
Proof.
  intros Hr c.
  assert (Hc : (0 <= c <= Z.of_nat n)%Z).
  { unfold c. split; [apply Z.div_pos; lia|].
    apply Z.div_le_upper_bound; lia. }
  rewrite !slice_bound_in_range by lia.
  set (lo := Z.to_nat (Z.max 0 (c - r))).
  set (hi := Z.to_nat (Z.min (Z.of_nat n) (c + r + 1))).
  unfold spec_window.
  rewrite (filter_ext_in _ (fun i => (lo <=? i)%nat && (i <? hi)%nat)).
  - rewrite filter_seq_segment. f_equal; lia.
  - intros i Hi. apply in_seq in Hi.
    destruct (Z.leb_spec (Z.abs (Z.of_nat i - c)) r);
    destruct (Nat.leb_spec lo i); destruct (Nat.ltb_spec i hi);
      cbn [andb]; try reflexivity; lia.
Qed.

Lemma spec_valid_valid_value (x : fval) : valid_value x = spec_valid x.
Proof.
  destruct x as [|s|q]; try reflexivity.
  unfold valid_value, spec_valid, valid_px. cbn [flt_b isfinite].
  now rewrite andb_true_r.
Qed.

Lemma omap_pointwise {A B : Type} (f g : A -> option B) (l : list A) :
  (forall x, f x = g x) -> omap f l = omap g l.
Proof.
  intros H. induction l as [|x l IH]; [reflexivity|].
  cbn. now rewrite H, IH.
Qed.

(** The patch the code slices is the patch of the specification. *)
Lemma center_patch_spec (m : depth_map) (r : Z) :
  rectangular m -> (0 <= r)%Z ->
  let h := Z.of_nat (height m) in
  let w := Z.of_nat (width m) in
  concat (slice2 (Z.max 0 (h / 2 - r)) (Z.min h (h / 2 + r + 1))
                 (Z.max 0 (w / 2 - r)) (Z.min w (w / 2 + r + 1)) m)
  = spec_patch m r.
Proof.
  intros Hrect Hr h w. subst h w. rewrite slice2_pixels by exact Hrect.
  unfold spec_patch. rewrite flat_map_concat_map.
  rewrite <- (spec_window_segment (height m) r Hr).
  rewrite <- (spec_window_segment (width m) r Hr).
  reflexivity.
Qed.

Lemma sample_center_patch_spec (m : depth_map) (r : Z) :
  rectangular m -> (0 <= r)%Z ->
  sample_center_patch m r = centerEstimate m r.
Proof.
  intros Hrect Hr. unfold sample_center_patch, centerEstimate, valid_depths.
  rewrite center_patch_spec by assumption.
  rewrite (omap_pointwise valid_value spec_valid); [reflexivity|].
  exact spec_valid_valid_value.
Qed.

(** ** The median of a constant vector *)

Lemma insert_sorted_length (x : Q) (l : list Q) :
  length (insert_sorted x l) = S (length l).
Proof.
  induction l as [|y l IH]; [reflexivity|].
  cbn. destruct (Qle_bool x y); cbn; [reflexivity | now rewrite IH].
Qed.

Lemma sort_asc_length (l : list Q) : length (sort_asc l) = length l.
Proof.
  induction l as [|x l IH]; [reflexivity|].
  cbn [sort_asc fold_right]. fold (sort_asc l).
  now rewrite insert_sorted_length, IH.
Qed.

Lemma insert_sorted_In (x y : Q) (l : list Q) :
  In y (insert_sorted x l) -> y = x \/ In y l.
Proof.
  induction l as [|z l IH]; cbn.
  - intros [H|[]]. now left.
  - destruct (Qle_bool x z); cbn.
    + intros [H|[H|H]]; auto.
    + intros [H|H]; auto. destruct (IH H); auto.
Qed.

Lemma sort_asc_In (y : Q) (l : list Q) : In y (sort_asc l) -> In y l.
Proof.
  induction l as [|x l IH]; [easy|].
  cbn [sort_asc fold_right]. fold (sort_asc l). intros H.
  destruct (insert_sorted_In _ _ _ H) as [->|H']; cbn; auto.
Qed.

Lemma np_median_constant (c : Q) (v : list Q) :
  v <> [] -> (forall x, In x v -> x = c) ->
  fl32 (fl32 (c + c) / 2) = c ->
  np_median v = c.
Proof.
  intros Hne Hall Hmean. unfold np_median.
  pose proof (sort_asc_length v) as Hlen.
  assert (Hpos : (0 < length v)%nat) by (destruct v; [congruence | cbn; lia]).
  assert (Hnth : forall i, (i < length (sort_asc v))%nat -> nth i (sort_asc v) 0 = c).
  { intros i Hi. apply Hall, sort_asc_In, nth_In, Hi. }
  assert (Hhalf : (length (sort_asc v) / 2 < length (sort_asc v))%nat).
  { apply Nat.div_lt; lia. }
  destruct (Nat.even (length (sort_asc v))).
  - rewrite !Hnth by lia. exact Hmean.
  - apply Hnth. lia.
Qed.

(** ** The all-5.0 map with a hole at its centre *)

Lemma nth_map_seq {A : Type} (f : nat -> A) (n i : nat) (d : A) :
  (i < n)%nat -> nth i (map f (seq 0 n)) d = f i.
Proof.
  intros H. rewrite (nth_indep _ d (f 0%nat)) by (now rewrite length_map, length_seq).
  rewrite map_nth. now rewrite seq_nth.
Qed.

Lemma hole_map_height (h w : nat) (x : fval) : height (hole_map h w x) = h.
Proof. unfold height, hole_map. now rewrite length_map, length_seq. Qed.

Lemma hole_map_width (h w : nat) (x : fval) :
  (1 <= h)%nat -> width (hole_map h w x) = w.
Proof.
  intros H. unfold width, hole_map. destruct h as [|h]; [lia|].
  cbn [seq map]. now rewrite length_map, length_seq.
Qed.

Lemma hole_map_rectangular (h w : nat) (x : fval) :
  (1 <= h)%nat -> rectangular (hole_map h w x).
Proof.
  intros H. unfold rectangular. rewrite hole_map_width by exact H.
  unfold hole_map. apply List.Forall_forall. intros row Hin.
  apply in_map_iff in Hin. destruct Hin as (i & <- & _).
  now rewrite length_map, length_seq.
Qed.

Lemma hole_map_pixel (h w : nat) (x : fval) (i j : nat) :
  (i < h)%nat -> (j < w)%nat ->
  pixel (hole_map h w x) i j =
    if (i =? h / 2)%nat && (j =? w / 2)%nat then x else FFin 5.
Proof.
  intros Hi Hj. unfold pixel, hole_map.
  rewrite (nth_map_seq _ h i []) by exact Hi.
  now rewrite (nth_map_seq _ w j FNaN) by exact Hj.
Qed.

Lemma spec_valid_5 : spec_valid (FFin 5) = Some 5.
Proof. vm_compute. reflexivity. Qed.

Lemma valid_row_full (g : nat -> fval) (a n : nat) :
  (forall j, In j (seq a n) -> g j = FFin 5) ->
  length (omap spec_valid (map g (seq a n))) = n.
Proof.
  revert a. induction n as [|n IH]; intros a H; [reflexivity|].
  cbn [seq map omap list_omap]. rewrite (H a) by (cbn; auto).
  rewrite spec_valid_5. cbn [length]. f_equal.
  apply IH. intros j Hj. apply H. cbn. auto.
Qed.

Lemma valid_row_hole (g : nat -> fval) (c a n : nat) :
  (forall j, In j (seq a n) -> j <> c -> g j = FFin 5) ->
  (n - 1 <= length (omap spec_valid (map g (seq a n))))%nat.
Proof.
  revert a. induction n as [|n IH]; intros a H; [cbn; lia|].
  cbn [seq map omap list_omap].
  destruct (Nat.eq_dec a c) as [E|N].
  - assert (L : length (omap spec_valid (map g (seq (S a) n))) = n).
    { apply valid_row_full. intros j Hj. apply H; [cbn; auto|].
      apply in_seq in Hj. lia. }
    fold (omap spec_valid (map g (seq (S a) n))).
    destruct (spec_valid (g a)); cbn [length]; lia.
  - rewrite (H a) by (cbn; auto). rewrite spec_valid_5. cbn [length].
    specialize (IH (S a)). fold (omap spec_valid (map g (seq (S a) n))).
    assert (n - 1 <= length (omap spec_valid (map g (seq (S a) n))))%nat.
    { apply IH. intros j Hj. apply H. cbn. auto. }
    lia.
Qed.

Lemma valid_px_false_spec (x : fval) : valid_px x = false -> spec_valid x = None.
Proof.
  intros H. rewrite <- spec_valid_valid_value. unfold valid_value.
  destruct x; try reflexivity. now rewrite H.
Qed.

Lemma centerEstimate_hole_map (h w : nat) (hole : fval) :
  (2 <= h)%nat -> (2 <= w)%nat -> valid_px hole = false ->
  centerEstimate (hole_map h w hole) 2 = Some 5.
Proof.
  intros Hh Hw Hhole. apply valid_px_false_spec in Hhole.
  unfold centerEstimate, spec_patch.
  rewrite hole_map_height, hole_map_width by lia.
  rewrite (spec_window_segment h 2), (spec_window_segment w 2) by lia.
  assert (Hch : (0 <= Z.of_nat h / 2 <= Z.of_nat h)%Z)
    by (split; [apply Z.div_pos; lia | apply Z.div_le_upper_bound; lia]).
  assert (Hcw : (0 <= Z.of_nat w / 2 <= Z.of_nat w)%Z)
    by (split; [apply Z.div_pos; lia | apply Z.div_le_upper_bound; lia]).
  rewrite !slice_bound_in_range by lia.
  set (y0 := Z.to_nat (Z.max 0 (Z.of_nat h / 2 - 2))).
  set (y1 := Z.to_nat (Z.min (Z.of_nat h) (Z.of_nat h / 2 + 2 + 1))).
  set (x0 := Z.to_nat (Z.max 0 (Z.of_nat w / 2 - 2))).
  set (x1 := Z.to_nat (Z.min (Z.of_nat w) (Z.of_nat w / 2 + 2 + 1))).
  assert (Hy : (y0 + 2 <= y1 /\ y1 <= h)%nat) by (subst y0 y1; lia).
  assert (Hx : (x0 + 2 <= x1 /\ x1 <= w)%nat) by (subst x0 x1; lia).
  set (row := fun i => map (fun j => pixel (hole_map h w hole) i j) (seq x0 (x1 - x0))).
  set (v := omap spec_valid (flat_map row (seq y0 (y1 - y0)))).
  assert (Hpix : forall i j, In i (seq y0 (y1 - y0)) -> In j (seq x0 (x1 - x0)) ->
            pixel (hole_map h w hole) i j =
              if (i =? h / 2)%nat && (j =? w / 2)%nat then hole else FFin 5).
  { intros i j Hi Hj. apply in_seq in Hi, Hj. apply hole_map_pixel; lia. }
  assert (Hall : forall x, In x v -> x = 5).
  { intros x Hx5. apply list_elem_of_In, list_elem_of_omap in Hx5.
    destruct Hx5 as (px & Hin & Hv). apply list_elem_of_In, in_flat_map in Hin.
    destruct Hin as (i & Hi & Hin). apply in_map_iff in Hin.
    destruct Hin as (j & <- & Hj). rewrite (Hpix i j Hi Hj) in Hv.
    destruct ((i =? h / 2)%nat && (j =? w / 2)%nat).
    - congruence.
    - rewrite spec_valid_5 in Hv. congruence. }
  assert (Hrow_full : forall i, In i (seq y0 (y1 - y0)) -> i <> (h / 2)%nat ->
            length (omap spec_valid (row i)) = (x1 - x0)%nat).
  { intros i Hi Hne. apply valid_row_full. intros j Hj.
    rewrite (Hpix i j Hi Hj).
    destruct (Nat.eqb_spec i (h / 2)); [contradiction | reflexivity]. }
  assert (Hrow_hole : forall i, In i (seq y0 (y1 - y0)) ->
            (x1 - x0 - 1 <= length (omap spec_valid (row i)))%nat).
  { intros i Hi. apply (valid_row_hole _ (w / 2)%nat). intros j Hj Hne.
    rewrite (Hpix i j Hi Hj).
    destruct (Nat.eqb_spec j (w / 2)); [contradiction | now rewrite andb_false_r]. }
  assert (Hlen : (3 <= length v)%nat).
  { assert (I0 : In y0 (seq y0 (y1 - y0))) by (apply in_seq; lia).
    assert (I1 : In (S y0) (seq y0 (y1 - y0))) by (apply in_seq; lia).
    assert (Eseq : seq y0 (y1 - y0) = y0 :: S y0 :: seq (S (S y0)) (y1 - y0 - 2)).
    { replace (y1 - y0)%nat with (S (S (y1 - y0 - 2))) at 1 by lia. reflexivity. }
    subst v. rewrite Eseq. cbn [flat_map]. rewrite !omap_app, !length_app.
    pose proof (Hrow_hole y0 I0). pose proof (Hrow_hole (S y0) I1).
    destruct (Nat.eq_dec y0 (h / 2)%nat) as [E|N].
    - assert (S y0 <> (h / 2)%nat) by lia.
      pose proof (Hrow_full (S y0) I1 ltac:(assumption)). lia.
    - pose proof (Hrow_full y0 I0 N). lia. }
  destruct (Nat.ltb_spec (length v) 3); [lia|].
  f_equal. apply np_median_constant.
  - intros E. rewrite E in Hlen. cbn in Hlen. lia.
  - exact Hall.
  - vm_compute. reflexivity.
Qed.

(** C6.  On every (rectangular) depth array, [sample_center_patch] with
    radius 2 is the centre estimate of the specification: the median of
    the valid pixels (finite, > 0.1, < 1000.0) of the 5 x 5 patch centred
    at [(rows // 2, cols // 2)] and clipped at the edges, and [None]
    exactly when fewer than three pixels of the patch are valid.  In
    particular an all-5.0 map of at least 2 x 2 pixels (so every map
    whose 5 x 5 patch is whole) with one invalid pixel at its exact
    centre yields 5.0, which classifies as near_mid. *)
Theorem sample_center_patch_center_estimate :
  (forall m : depth_map,
     rectangular m ->
     sample_center_patch m 2 = centerEstimate m 2 /\
     (sample_center_patch m 2 = None <->
        (length (omap spec_valid (spec_patch m 2)) < 3)%nat) /\
     (forall c, sample_center_patch m 2 = Some c ->
        c = np_median (omap spec_valid (spec_patch m 2)))) /\
  (forall (h w : nat) (hole : fval),
     (2 <= h)%nat -> (2 <= w)%nat -> valid_px hole = false ->
     sample_center_patch (hole_map h w hole) 2 = Some 5 /\
     classify_distance (FFin 5) = Some "near_mid"%string).
Proof.
  split.
  - intros m Hrect.
    assert (E : sample_center_patch m 2 = centerEstimate m 2)
      by (apply sample_center_patch_spec; [exact Hrect | lia]).
    split; [exact E|]. rewrite E. unfold centerEstimate.
    destruct (Nat.ltb_spec (length (omap spec_valid (spec_patch m 2))) 3).
    + split; [tauto|]. intros c Hc. discriminate Hc.
    + split; [split; [discriminate | lia]|]. intros c Hc. now inversion Hc.
  - intros h w hole Hh Hw Hhole. split.
    + rewrite sample_center_patch_spec;
        [now apply centerEstimate_hole_map | apply hole_map_rectangular; lia | lia].
    + vm_compute. reflexivity.
Qed.

(** C6 on the 5 x 5 map with a zero at its centre. *)
Lemma sample_center_patch_center_estimate_witness :
  sample_center_patch (hole_map 5 5 (FFin 0)) 2 = Some 5 /\
  classify_distance (FFin 5) = Some "near_mid"%string.
Proof.
  apply (proj2 sample_center_patch_center_estimate 5%nat 5%nat (FFin 0)).
  - lia.
  - lia.
  - vm_compute. reflexivity.
Defined.

(** C10.  On every 2-D array with at least one row and one column the
    clipped slice bounds of [sample_center_patch] lie inside the array
    and enclose at least one row and one column, the patch has exactly
    the rows and columns between them, and the function returns either
    [None] (fewer than three valid pixels) or the median of at least
    three valid pixels. *)
Theorem sample_center_patch_total (m : depth_map) :
  rectangular m -> (1 <= height m)%nat -> (1 <= width m)%nat ->
  let h := Z.of_nat (height m) in
  let w := Z.of_nat (width m) in
  let y0 := Z.max 0 (h / 2 - 2) in
  let y1 := Z.min h (h / 2 + 2 + 1) in
  let x0 := Z.max 0 (w / 2 - 2) in
  let x1 := Z.min w (w / 2 + 2 + 1) in
  let patch := slice2 y0 y1 x0 x1 m in
  (0 <= y0 < y1)%Z /\ (y1 <= h)%Z /\ (0 <= x0 < x1)%Z /\ (x1 <= w)%Z /\
  length patch = Z.to_nat (y1 - y0) /\
  Forall (fun row => length row = Z.to_nat (x1 - x0)) patch /\
  (1 <= length (concat patch))%nat /\
  ((sample_center_patch m 2 = None /\ (length (valid_depths patch) < 3)%nat) \/
   (sample_center_patch m 2 = Some (np_median (valid_depths patch)) /\
    (3 <= length (valid_depths patch))%nat)).
Proof.
  intros Hrect Hh Hw h w y0 y1 x0 x1 patch.
  assert (Hch : (0 <= h / 2 <= h)%Z)
    by (subst h; split; [apply Z.div_pos; lia | apply Z.div_le_upper_bound; lia]).
  assert (Hcw : (0 <= w / 2 <= w)%Z)
    by (subst w; split; [apply Z.div_pos; lia | apply Z.div_le_upper_bound; lia]).
  assert (Hch' : (h / 2 < h)%Z) by (subst h; apply Z.div_lt; lia).
  assert (Hcw' : (w / 2 < w)%Z) by (subst w; apply Z.div_lt; lia).
  assert (By : (0 <= y0 < y1)%Z /\ (y1 <= h)%Z) by (subst y0 y1; lia).
  assert (Bx : (0 <= x0 < x1)%Z /\ (x1 <= w)%Z) by (subst x0 x1; lia).
  assert (Epatch : patch =
            map (fun i => map (fun j => pixel m i j)
                              (seq (Z.to_nat x0) (Z.to_nat x1 - Z.to_nat x0)))
                (seq (Z.to_nat y0) (Z.to_nat y1 - Z.to_nat y0))).
  { subst patch. rewrite slice2_pixels by exact Hrect.
    rewrite !slice_bound_in_range by (subst h w; lia). reflexivity. }
  assert (Lrows : length patch = Z.to_nat (y1 - y0)).
  { rewrite Epatch, length_map, length_seq. lia. }
  assert (Lcols : Forall (fun row => length row = Z.to_nat (x1 - x0)) patch).
  { rewrite Epatch. apply List.Forall_forall. intros row Hin.
    apply in_map_iff in Hin. destruct Hin as (i & <- & _).
    rewrite length_map, length_seq. lia. }
  assert (Lall : (1 <= length (concat patch))%nat).
  { destruct patch as [|row rest] eqn:Ep; [cbn in Lrows; lia|].
    cbn [concat]. rewrite length_app.
    apply Forall_inv in Lcols. lia. }
  repeat (split; [tauto|]).
  unfold sample_center_patch.
  fold h w. fold y0 y1 x0 x1. fold patch.
  destruct (Nat.ltb_spec (length (valid_depths patch)) 3); [left | right]; now split.
Qed.

(** C10 on a 2 x 3 map, smaller than the patch; and the 1 x 1 map. *)
Lemma sample_center_patch_total_witness :
  let m := [[FFin 5; FFin 5; FFin 5]; [FFin 5; FFin 5; FFin 5]] in
  (sample_center_patch m 2 = Some 5 /\ sample_center_patch [[FFin 5]] 2 = None) /\
  ((sample_center_patch m 2 = None /\
    (length (valid_depths (slice2 0 2 0 3 m)) < 3)%nat) \/
   (sample_center_patch m 2 = Some (np_median (valid_depths (slice2 0 2 0 3 m))) /\
    (3 <= length (valid_depths (slice2 0 2 0 3 m)))%nat)).
Proof.
  split.
  - split; vm_compute; reflexivity.
  - refine (proj2 (proj2 (proj2 (proj2 (proj2 (proj2 (proj2
      (sample_center_patch_total
         [[FFin 5; FFin 5; FFin 5]; [FFin 5; FFin 5; FFin 5]] _ _ _))))))));
      cbn.
    + repeat constructor.
    + lia.
    + lia.
Defined.

(** ** The admission protocol *)

Lemma count_bump_same (bc : gmap string nat) (band : string) :
  count (bump bc band) band = S (count bc band).
Proof. unfold bump, count at 1. now rewrite lookup_insert_eq. Qed.

Lemma count_bump_other (bc : gmap string nat) (band band' : string) :
  band <> band' -> count (bump bc band) band' = count bc band'.
Proof. intros H. unfold bump, count at 1. now rewrite lookup_insert_ne. Qed.

Ltac protocol_case :=
  unfold follows_protocol, is_accepted, admissible; cbn [fst snd];
  repeat match goal with
  | |- _ /\ _ => split
  | |- _ <-> _ => split
  | |- _ -> _ => intro
  | H : exists _, _ |- _ => destruct H
  | H : _ /\ _ |- _ => destruct H
  | H : _ \/ _ |- _ => destruct H
  | H : Some _ = Some _ |- _ => inversion H; clear H; subst
  | H : ?x = Some _, H' : ?x = Some _ |- _ => rewrite H in H'
  | H : ?x = Some _, H' : ?x = None |- _ => rewrite H in H'
  | H : In _ _ |- _ => cbn in H
  | H : Accepted _ = Accepted _ |- _ => inversion H; clear H; subst
  | H : (_ <=? _)%nat = true |- _ => apply Nat.leb_le in H
  | H : (_ <=? _)%nat = false |- _ => apply Nat.leb_gt in H
  | H : ~ (exists s, Accepted _ = Accepted s) |- _ =>
      exfalso; apply H; eexists; reflexivity
  end; reflect_cmp; try discriminate; try congruence.

Lemma offer_diode_protocol (tier : Z) (acc : accumulator) (c : diode_candidate) :
  follows_protocol [EvCenter; EvClassify; EvQuota; EvSpread]
    (diode_depth32 (dc_frame c)) acc (step_diode tier acc c)
    (offer_diode tier (snd acc) c).
Proof.
  unfold step_diode, offer_diode.
  destruct (sample_center_patch (diode_depth32 (dc_frame c)) 2) as [center|] eqn:Hc.
  2: { protocol_case; try lra; try lia; eauto.
       exists 1%nat. reflexivity. }
  destruct (Qlt_b center (lit (3 # 10))) eqn:H3.
  { protocol_case; try lra; try lia; eauto.
    exists 1%nat. reflexivity. }
  destruct (classify_distance (FFin center)) as [band|] eqn:Hb.
  2: { protocol_case; try lra; try lia; eauto.
       exists 2%nat. reflexivity. }
  destruct (target band <=? count (snd acc) band)%nat eqn:Hq.
  { protocol_case; try lra; try lia; eauto 6.
    exists 3%nat. reflexivity. }
  destruct (compute_percentiles (diode_depth32 (dc_frame c))) as [p25 p75].
  protocol_case; cbn [distance_band record_outcome fst snd] in *;
    try lra; try lia; eauto 8.
  - exists 4%nat. reflexivity.
  - cbn. tauto.
  - exists center. repeat split; auto using count_bump_same.
Qed.

Lemma offer_arkitscenes_protocol (tier : Z) (acc : accumulator) (c : ark_candidate) :
  follows_protocol [EvCenter; EvLidarCenter; EvClassify; EvQuota; EvSpread]
    (ac_gt c) acc (step_arkitscenes tier acc c)
    (offer_arkitscenes tier (snd acc) c).
Proof.
  unfold step_arkitscenes, offer_arkitscenes.
  destruct (sample_center_patch (ac_gt c) 2) as [center|] eqn:Hc.
  2: { protocol_case; try lra; try lia; eauto.
       exists 1%nat. reflexivity. }
  destruct (Qlt_b center (lit (3 # 10))) eqn:H3.
  { protocol_case; try lra; try lia; eauto.
    exists 1%nat. reflexivity. }
  destruct (classify_distance (FFin center)) as [band|] eqn:Hb.
  2: { protocol_case; try lra; try lia; eauto.
       exists 3%nat. reflexivity. }
  destruct (target band <=? count (snd acc) band)%nat eqn:Hq.
  { protocol_case; try lra; try lia; eauto 6.
    exists 4%nat. reflexivity. }
  destruct (compute_percentiles (ac_gt c)) as [p25 p75].
  protocol_case; cbn [distance_band record_outcome fst snd] in *;
    try lra; try lia; eauto 8.
  - exists 5%nat. reflexivity.
  - cbn. tauto.
  - exists center. repeat split; auto using count_bump_same.
Qed.

(** C2.  For both adapters, a decoded candidate is accepted (a sample is
    appended and its band's count incremented) exactly when its centre
    estimate exists, is at least 0.3 m, classifies into a band, and that
    band's count is below its target.  The calls happen in the order
    centre, (LiDAR centre,) classification, quota, spread, stopping at
    the first failing check; a rejected candidate leaves samples and
    counts as they were; [compute_percentiles] is called exactly on the
    admitted candidates. *)
Theorem admission_protocol (tier : Z) (acc : accumulator) :
  (forall c : diode_candidate,
     follows_protocol [EvCenter; EvClassify; EvQuota; EvSpread]
       (diode_depth32 (dc_frame c)) acc (step_diode tier acc c)
       (offer_diode tier (snd acc) c)) /\
  (forall c : ark_candidate,
     follows_protocol [EvCenter; EvLidarCenter; EvClassify; EvQuota; EvSpread]
       (ac_gt c) acc (step_arkitscenes tier acc c)
       (offer_arkitscenes tier (snd acc) c)).
Proof.
  split.
  - intros c. apply offer_diode_protocol.
  - intros c. apply offer_arkitscenes_protocol.
Qed.

(** ** The quota invariant *)

Lemma quota_ok_zero : quota_ok zero_counts.
Proof.
  intros band. unfold count.
  destruct (zero_counts !! band) as [n|] eqn:E; cbn; [|lia].
  unfold zero_counts in E. apply elem_of_list_to_map_2 in E.
  apply list_elem_of_In in E. cbn in E.
  repeat (destruct E as [E|E]; [inversion E; subst; cbn; lia|]).
  destruct E.
Qed.

Lemma admission_step_counts (bc bc' : gmap string nat) :
  admission_step bc bc' ->
  forall band,
    count bc' band = count bc band \/
    ((count bc band < target band)%nat /\ count bc' band = S (count bc band)).
Proof.
  intros [->|(b & Hlt & ->)] band; [now left|].
  destruct (String.string_dec b band) as [->|Hne].
  - right. split; [exact Hlt | apply count_bump_same].
  - left. now apply count_bump_other.
Qed.

Lemma admission_step_quota (bc bc' : gmap string nat) :
  admission_step bc bc' -> quota_ok bc -> quota_ok bc'.
Proof.
  intros Hstep Hok band.
  destruct (admission_step_counts bc bc' Hstep band) as [->|[Hlt ->]].
  - apply Hok.
  - lia.
Qed.

Lemma last_cons_default {S : Type} (x d : S) (l : list S) :
  List.last (x :: l) d = List.last l x.
Proof.
  revert x d. induction l as [|y l IH]; intros x d; [reflexivity|].
  change (List.last (x :: y :: l) d) with (List.last (y :: l) d).
  now rewrite !IH.
Qed.

Lemma chain_app {S : Type} (step : S -> S -> Prop) (st : S) (l1 l2 : list S) :
  chain step st l1 -> chain step (List.last l1 st) l2 -> chain step st (l1 ++ l2).
Proof.
  revert st. induction l1 as [|x l1 IH]; intros st H1 H2; [exact H2|].
  destruct H1 as [Hx H1]. split; [exact Hx|].
  apply IH; [exact H1|].
  now rewrite last_cons_default in H2.
Qed.

Lemma last_app_default {S : Type} (l1 l2 : list S) (d : S) :
  List.last (l1 ++ l2) d = List.last l2 (List.last l1 d).
Proof.
  revert d. induction l1 as [|x l1 IH]; intros d; [reflexivity|].
  cbn [app]. rewrite !last_cons_default. apply IH.
Qed.

Lemma chain_quota (st : gmap string nat) (l : list (gmap string nat)) :
  chain admission_step st l -> quota_ok st -> Forall quota_ok l.
Proof.
  revert st. induction l as [|x l IH]; intros st Hc Hok; [constructor|].
  destruct Hc as [Hx Hc].
  assert (Hx' : quota_ok x) by (eapply admission_step_quota; eauto).
  constructor; [exact Hx' | eapply IH; eauto].
Qed.

Section LoopStates.

Context {X S T : Type} (proj : S -> T) (step : T -> T -> Prop).

Lemma for_each_states_chain (body : S -> X -> S) (xs : list X) (st : S) :
  (forall s x, step (proj s) (proj (body s x))) ->
  chain step (proj st) (map proj (for_each_states body xs st)).
Proof.
  intros H. revert st. induction xs as [|x xs IH]; intros st; cbn; [exact I|].
  split; [apply H | apply IH].
Qed.

Lemma for_each_states_last (body : S -> X -> S) (xs : list X) (st : S) :
  List.last (map proj (for_each_states body xs st)) (proj st) = proj (for_each body xs st).
Proof.
  revert st. induction xs as [|x xs IH]; intros st; [reflexivity|].
  cbn [for_each_states map]. rewrite last_cons_default. apply IH.
Qed.

Lemma while_states_chain (fuel : nat) (cond : S -> bool) (body : S -> S) (st : S) :
  (forall s, cond s = true -> step (proj s) (proj (body s))) ->
  chain step (proj st) (map proj (while_states fuel cond body st)).
Proof.
  intros H. revert st. induction fuel as [|fuel IH]; intros st; cbn;
    destruct (cond st) eqn:E; cbn; auto.
Qed.

Lemma while_states_last (fuel : nat) (cond : S -> bool) (body : S -> S) (st st' : S) :
  while_loop fuel cond body st = Some st' ->
  List.last (map proj (while_states fuel cond body st)) (proj st) = proj st'.
Proof.
  revert st. induction fuel as [|fuel IH]; intros st; cbn;
    destruct (cond st) eqn:E; try discriminate.
  - intros H. now inversion H.
  - intros H. cbn [map]. rewrite last_cons_default. now apply IH.
  - intros H. now inversion H.
Qed.

End LoopStates.

(** *** Every loop body is an admission step *)

Lemma step_diode_admission (tier : Z) (acc : accumulator) (c : diode_candidate) :
  admission_step (snd acc) (snd (step_diode tier acc c)).
Proof.
  unfold step_diode, offer_diode.
  destruct (sample_center_patch _ 2) as [center|]; [|now left].
  destruct (Qlt_b center _); [now left|].
  destruct (classify_distance _) as [band|]; [|now left].
  destruct (Nat.leb_spec (target band) (count (snd acc) band)); [now left|].
  destruct (compute_percentiles _) as [p25 p75].
  right. exists band. split; [lia | reflexivity].
Qed.

Lemma step_arkitscenes_admission (tier : Z) (acc : accumulator) (c : ark_candidate) :
  admission_step (snd acc) (snd (step_arkitscenes tier acc c)).
Proof.
  unfold step_arkitscenes, offer_arkitscenes.
  destruct (sample_center_patch (ac_gt c) 2) as [center|]; [|now left].
  destruct (Qlt_b center _); [now left|].
  destruct (classify_distance _) as [band|]; [|now left].
  destruct (Nat.leb_spec (target band) (count (snd acc) band)); [now left|].
  destruct (compute_percentiles _) as [p25 p75].
  right. exists band. split; [lia | reflexivity].
Qed.

Lemma backfill_step_admission (acc : accumulator) (s : GroundTruthSample) :
  admission_step (snd acc) (snd (backfill_step acc s)).
Proof.
  unfold backfill_step.
  destruct (Nat.ltb_spec (count (snd acc) (distance_band s)) (target (distance_band s)));
    [|now left].
  right. exists (distance_band s). split; [lia | reflexivity].
Qed.

Section GeneratorInvariant.

Context (R : RandomSource).

Lemma synth_ark_body_admission (st : gen_state R) (d : Q) :
  admission_step (g_counts R st) (g_counts R (synth_ark_body R st d)).
Proof.
  unfold synth_ark_body.
  destruct (classify_distance _) as [band|]; [|now left].
  destruct (Nat.leb_spec (target band) (count (g_counts R st) band)); [now left|].
  destruct (np_normal R _ _ _) as [z np1].
  destruct (rng_uniform R _ _ _) as [u r1].
  destruct (rng_randint R 1 500 r1) as [scene_num r2].
  destruct (rng_randint R 1 5000 r2) as [frame_num r3].
  right. exists band. split; [lia | reflexivity].
Qed.

Lemma synth_diode_body_admission (env : string) (u_lo u_hi floor w_lo w_hi : Q)
    (st : gen_state R) (d : Q) :
  admission_step (g_counts R st)
    (g_counts R (synth_diode_body R env u_lo u_hi floor w_lo w_hi st d)).
Proof.
  unfold synth_diode_body.
  destruct (classify_distance _) as [band|]; [|now left].
  destruct (Nat.leb_spec (target band) (count (g_counts R st) band)); [now left|].
  destruct (rng_uniform R _ _ _) as [u r1].
  destruct (rng_randint R 1 200 r1) as [scene_num r2].
  destruct (rng_randint R 1 50 r2) as [scan_num r3].
  destruct (rng_randint R 1 300 r3) as [frame_num r4].
  right. exists band. split; [lia | reflexivity].
Qed.

(** What one iteration of the fill loop does to the counts and to the
    sample list. *)
Lemma fill_body_effect (band_name : string) (lo hi : Q) (st : gen_state R) :
  g_counts R (fill_body R band_name lo hi st) = bump (g_counts R st) band_name /\
  exists s, g_samples R (fill_body R band_name lo hi st) = g_samples R st ++ [s] /\
            distance_band s = band_name.
Proof.
  unfold fill_body.
  destruct (rng_uniform R lo hi _) as [d r1].
  destruct (if Qlt_b 15 d then _ else _) as [is_outdoor r2].
  destruct (if is_outdoor || Qlt_b 10 d then _ else _) as [ds r3].
  destruct (if String.eqb ds "arkitscenes" && Qlt_b d 10 then _ else _)
    as [lidar_reading np1].
  destruct (rng_uniform R _ 1 r3) as [u r4].
  destruct (rng_randint R 1 500 r4) as [scene_num r5].
  destruct (rng_randint R 1 50 r5) as [scan_num r6].
  destruct (rng_randint R 1 5000 r6) as [frame_num r7].
  cbn. split; [reflexivity|]. eexists. split; reflexivity.
Qed.

Lemma fill_body_admission (band_name : string) (lo hi : Q) (st : gen_state R) :
  fill_cond R band_name st = true ->
  admission_step (g_counts R st) (g_counts R (fill_body R band_name lo hi st)).
Proof.
  intros Hc. unfold fill_cond in Hc. apply Nat.ltb_lt in Hc.
  right. exists band_name. split; [exact Hc|].
  apply (fill_body_effect band_name lo hi st).
Qed.

Lemma fill_bands_states_chain (fuel : nat) (bands : list (string * (Q * Q)))
    (st : gen_state R) :
  chain admission_step (g_counts R st)
    (map (g_counts R) (fill_bands_states R fuel bands st)).
Proof.
  revert st. induction bands as [|[band_name [lo hi]] rest IH]; intros st; [exact I|].
  cbn [fill_bands_states]. rewrite map_app. apply chain_app.
  - apply while_states_chain. intros s Hs. now apply fill_body_admission.
  - destruct (while_loop fuel _ _ st) as [st'|] eqn:E; [|exact I].
    rewrite (while_states_last (g_counts R) fuel _ _ st st' E). apply IH.
Qed.

Lemma distances_keep_counts (seed : Z) (st : gen_state R) :
  g_counts R (snd (ark_distances R st)) = g_counts R st /\
  g_counts R (snd (indoor_distances R st)) = g_counts R st /\
  g_counts R (snd (outdoor_distances R st)) = g_counts R st.
Proof.
  unfold ark_distances, indoor_distances, outdoor_distances.
  repeat split.
  - destruct (np_lognormal R _ _ 20000 _) as [a np1].
    now destruct (rng_shuffle R _ _) as [p r1].
  - now destruct (np_lognormal R 3 _ _ _) as [a np1].
  - now destruct (np_lognormal R 25 _ _ _) as [a np1].
Qed.

Lemma generator_counts_chain (fuel : nat) (seed : Z) :
  chain admission_step zero_counts (generator_counts R fuel seed).
Proof.
  unfold generator_counts.
  destruct (ark_distances R (gen_init R seed)) as [a1 s1] eqn:E1.
  destruct (indoor_distances R (for_each (synth_ark_body R) a1 s1)) as [a2 s2] eqn:E2.
  destruct (outdoor_distances R (for_each (synth_indoor_body R) a2 s2)) as [a3 s3] eqn:E3.
  assert (C1 : g_counts R s1 = zero_counts).
  { pose proof (proj1 (distances_keep_counts seed (gen_init R seed))) as H.
    now rewrite E1 in H. }
  assert (C2 : g_counts R s2 = g_counts R (for_each (synth_ark_body R) a1 s1)).
  { pose proof (proj1 (proj2 (distances_keep_counts seed
                  (for_each (synth_ark_body R) a1 s1)))) as H.
    now rewrite E2 in H. }
  assert (C3 : g_counts R s3 = g_counts R (for_each (synth_indoor_body R) a2 s2)).
  { pose proof (proj2 (proj2 (distances_keep_counts seed
                  (for_each (synth_indoor_body R) a2 s2)))) as H.
    now rewrite E3 in H. }
  rewrite !map_app.
  apply chain_app.
  { rewrite <- C1. apply for_each_states_chain. apply synth_ark_body_admission. }
  rewrite <- C1, for_each_states_last, <- C2.
  apply chain_app.
  { apply for_each_states_chain. intros s x. apply synth_diode_body_admission. }
  rewrite for_each_states_last, <- C3.
  apply chain_app.
  { apply for_each_states_chain. intros s x. apply synth_diode_body_admission. }
  rewrite for_each_states_last.
  apply fill_bands_states_chain.
Qed.

Lemma main_counts_chain (fuel : nat) (args : Args) (ark : list ark_scene)
    (diode : diode_tree) :
  chain admission_step zero_counts (main_counts R fuel args ark diode).
Proof.
  unfold main_counts. destruct (synthetic_mode args); [exact I|].
  set (tier := arg_tier args).
  apply chain_app.
  { apply (for_each_states_chain snd admission_step (step_arkitscenes tier)
             (ark_candidates ark) ([], zero_counts)).
    intros s x. apply step_arkitscenes_admission. }
  match goal with
  | |- chain _ ?x _ =>
      replace x with (snd (process_arkitscenes tier ark zero_counts))
        by (symmetry;
            apply (for_each_states_last snd (step_arkitscenes tier)
                     (ark_candidates ark) ([], zero_counts)))
  end.
  set (acc1 := process_arkitscenes tier ark zero_counts).
  apply chain_app.
  { apply (for_each_states_chain snd admission_step (step_diode tier)
             (diode_candidates diode) ([], snd acc1)).
    intros s x. apply step_diode_admission. }
  assert (E : snd (process_diode tier diode (snd acc1))
              = snd (real_pass tier ark diode)).
  { unfold real_pass. fold acc1. destruct acc1 as [ark_samples bc1].
    cbn [snd]. now destruct (process_diode tier diode bc1). }
  match goal with
  | |- chain _ ?x _ =>
      replace x with (snd (real_pass tier ark diode))
        by (rewrite <- E; symmetry;
            apply (for_each_states_last snd (step_diode tier)
                     (diode_candidates diode) ([], snd acc1)))
  end.
  destruct (needs_backfill _); [|exact I].
  destruct (generate_synthetic_manifest R fuel _ _) as [synthetic|]; [|exact I].
  apply (for_each_states_chain snd admission_step backfill_step).
  intros s x. apply backfill_step_admission.
Qed.

End GeneratorInvariant.

(** C1.  The counts of a run -- the driver's shared [band_counts] through
    both adapters and the backfill, and the generator's own
    [band_counts] through its three sampling loops and its fill loops --
    start at zero and move by admission steps only: a step either leaves
    the counts alone or, having found one band strictly below its
    target, raises that band by exactly one.  So after every single step
    every band's count is at most its target. *)
Theorem quota_never_exceeded (R : RandomSource) (fuel : nat) (args : Args)
    (ark : list ark_scene) (diode : diode_tree) :
  let run := main_counts R fuel args ark diode in
  let gen := generator_counts R fuel (arg_seed args) in
  chain admission_step zero_counts run /\
  chain admission_step zero_counts gen /\
  (forall bc bc' : gmap string nat,
     admission_step bc bc' ->
     forall band,
       count bc' band = count bc band \/
       ((count bc band < target band)%nat /\ count bc' band = S (count bc band))) /\
  (forall bc band, In bc (run ++ gen) -> (count bc band <= target band)%nat).
Proof.
  intros run gen.
  pose proof (main_counts_chain R fuel args ark diode) as Hrun.
  pose proof (generator_counts_chain R fuel (arg_seed args)) as Hgen.
  fold run in Hrun. fold gen in Hgen.
  split; [exact Hrun|]. split; [exact Hgen|].
  split; [exact admission_step_counts|].
  intros bc band Hin.
  pose proof (chain_quota _ _ Hrun quota_ok_zero) as Frun.
  pose proof (chain_quota _ _ Hgen quota_ok_zero) as Fgen.
  rewrite List.Forall_forall in Frun, Fgen.
  apply in_app_or in Hin. destruct Hin as [Hin|Hin]; [now apply Frun | now apply Fgen].
Qed.

(** ** Completeness of the synthetic generator *)

Lemma band_count_app (l1 l2 : list GroundTruthSample) (band : string) :
  band_count (l1 ++ l2) band = (band_count l1 band + band_count l2 band)%nat.
Proof. unfold band_count. now rewrite List.filter_app, length_app. Qed.

Lemma band_count_single (s : GroundTruthSample) (band : string) :
  band_count [s] band = if String.eqb (distance_band s) band then 1%nat else 0%nat.
Proof. unfold band_count. cbn. now destruct (String.eqb _ _). Qed.

Lemma band_count_perm (l l' : list GroundTruthSample) (band : string) :
  Permutation l l' -> band_count l band = band_count l' band.
Proof.
  unfold band_count. induction 1; cbn;
    repeat match goal with |- context [String.eqb ?a ?b] => destruct (String.eqb a b) end;
    cbn; congruence.
Qed.

Lemma target_le_2000 (band : string) : (target band <= 2000)%nat.
Proof.
  unfold target, BAND_TARGETS. cbn [dict_get].
  repeat match goal with |- context [String.eqb ?a ?b] => destruct (String.eqb a b) end;
    lia.
Qed.

Lemma classify_distance_band_name (d : fval) (band : string) :
  classify_distance d = Some band -> In band band_names.
Proof.
  intros H. destruct (classify_distance_Some d band H) as (q & lo & hi & _ & Hin & _).
  apply (in_map fst) in Hin. exact Hin.
Qed.

(** The bands partition a list of samples whose bands are in the table. *)
Lemma length_by_band (l : list GroundTruthSample) :
  Forall (fun s => In (distance_band s) band_names) l ->
  length l = list_sum (map (band_count l) band_names).
Proof.
  induction 1 as [|s l Hs Hl IH]; [reflexivity|].
  change (s :: l) with ([s] ++ l).
  cbn [band_names DISTANCE_BANDS map fst list_sum] in *.
  rewrite !band_count_app, !band_count_single. cbn [app length]. rewrite IH.
  cbn in Hs.
  repeat (destruct Hs as [Hs|Hs]; [rewrite <- Hs; cbn; lia|]).
  destruct Hs.
Qed.

Lemma lit_range (a b : Q) : Qle_bool a b = true -> a <= b.
Proof. apply Qle_bool_iff. Qed.

(** An inequality between constants, by evaluation. *)
Ltac lit_le := apply lit_range; vm_compute; reflexivity.

(** ** What the generator emits *)

Lemma synthetic_sample_band (s : GroundTruthSample) :
  synthetic_sample s -> In (distance_band s) band_names.
Proof.
  intros [d u sc fr Hc|env fl wl wh d u sc sn fr Hc|ds env lo hi d u sc sn fr Hin].
  - now apply (classify_distance_band_name (FFin d)).
  - now apply (classify_distance_band_name (FFin d)).
  - apply (in_map fst) in Hin. exact Hin.
Qed.

Section GeneratorFacts.

Context (R : RandomSource).

Lemma synth_ark_body_emits (st : gen_state R) (d : Q) :
  emits R st (synth_ark_body R st d).
Proof.
  unfold synth_ark_body.
  destruct (classify_distance (FFin d)) as [band|] eqn:Hb; [|now left].
  destruct (Nat.leb_spec (target band) (count (g_counts R st) band)); [now left|].
  destruct (np_normal R _ _ _) as [z np1].
  assert (Hr : lit (3 # 10) <= lit (8 # 10)) by lit_le.
  pose proof (rng_uniform_range R (lit (3 # 10)) (lit (8 # 10)) (g_rng R st) Hr)
    as [Hu _].
  destruct (rng_uniform R _ _ _) as [u r1]. cbn [fst] in Hu.
  destruct (rng_randint R 1 500 r1) as [scene_num r2].
  destruct (rng_randint R 1 5000 r2) as [frame_num r3].
  right. eexists. cbn [g_samples g_counts].
  split; [|split; [|split; reflexivity]]; cbn [distance_band]; [|lia].
  apply (ark_like _ d u scene_num frame_num); cbn; try reflexivity; try exact Hb.
  assert (0 <= lit (3 # 10)) by lit_le. lra.
Qed.

Lemma synth_diode_body_emits (env : string) (u_lo u_hi floor w_lo w_hi : Q)
    (st : gen_state R) (d : Q) :
  0 <= u_lo -> u_lo <= u_hi -> 0 <= w_lo -> 0 <= w_hi -> floor <= 1 # 2 ->
  env = "indoor"%string \/ env = "outdoor"%string ->
  emits R st (synth_diode_body R env u_lo u_hi floor w_lo w_hi st d).
Proof.
  intros H0 Hlh Hwl Hwh Hfl Henv. unfold synth_diode_body.
  destruct (classify_distance (FFin d)) as [band|] eqn:Hb; [|now left].
  destruct (Nat.leb_spec (target band) (count (g_counts R st) band)); [now left|].
  pose proof (rng_uniform_range R u_lo u_hi (g_rng R st) Hlh) as [Hu _].
  destruct (rng_uniform R _ _ _) as [u r1]. cbn [fst] in Hu.
  destruct (rng_randint R 1 200 r1) as [scene_num r2].
  destruct (rng_randint R 1 50 r2) as [scan_num r3].
  destruct (rng_randint R 1 300 r3) as [frame_num r4].
  right. eexists. cbn [g_samples g_counts].
  split; [|split; [|split; reflexivity]]; cbn [distance_band]; [|lia].
  apply (diode_like _ env floor w_lo w_hi d u scene_num scan_num frame_num);
    cbn; try reflexivity; try assumption. lra.
Qed.

Lemma synth_indoor_body_emits (st : gen_state R) (d : Q) :
  emits R st (synth_indoor_body R st d).
Proof.
  apply synth_diode_body_emits; try lit_le. now left.
Qed.

Lemma synth_outdoor_body_emits (st : gen_state R) (d : Q) :
  emits R st (synth_outdoor_body R st d).
Proof.
  apply synth_diode_body_emits; try lit_le. now right.
Qed.

Lemma fill_body_emits (band_name : string) (lo hi : Q) (st : gen_state R) :
  In (band_name, (lo, hi)) DISTANCE_BANDS ->
  fill_cond R band_name st = true ->
  emits R st (fill_body R band_name lo hi st).
Proof.
  intros Hin Hc. unfold fill_cond in Hc. apply Nat.ltb_lt in Hc.
  assert (Hlohi : lo <= hi).
  { apply band_of_table in Hin.
    repeat destruct Hin as [Hin|Hin]; inversion Hin; subst; lit_le. }
  unfold fill_body.
  pose proof (rng_uniform_range R lo hi (g_rng R st) Hlohi) as [Hd1 Hd2].
  destruct (rng_uniform R lo hi _) as [d r1]. cbn [fst] in Hd1, Hd2.
  destruct (if Qlt_b 15 d then _ else _) as [is_outdoor r2].
  assert (Hds : forall p : string * rng_state R,
            p = (if is_outdoor || Qlt_b 10 d then ("diode"%string, r2)
                 else rng_choice R ["arkitscenes"%string; "diode"%string] r2) ->
            fst p = "arkitscenes"%string \/ fst p = "diode"%string).
  { intros p ->. destruct (is_outdoor || Qlt_b 10 d); [now right|].
    unfold rng_choice. cbn [length].
    pose proof (rng_randbelow_lt R 2 r2 ltac:(lia)) as Hk.
    destruct (rng_randbelow R 2 r2) as [k r]. cbn [fst] in *.
    destruct k as [|[|k]]; cbn; auto. lia. }
  destruct (if is_outdoor || Qlt_b 10 d then _ else _) as [ds r3].
  specialize (Hds _ eq_refl). cbn [fst] in Hds.
  destruct (if String.eqb ds "arkitscenes" && Qlt_b d 10 then _ else _)
    as [lidar_reading np1].
  assert (Hr : lit (3 # 10) <= 1) by lit_le.
  pose proof (rng_uniform_range R (lit (3 # 10)) 1 r3 Hr) as [Hu _].
  destruct (rng_uniform R _ 1 r3) as [u r4]. cbn [fst] in Hu.
  destruct (rng_randint R 1 500 r4) as [scene_num r5].
  destruct (rng_randint R 1 50 r5) as [scan_num r6].
  destruct (rng_randint R 1 5000 r6) as [frame_num r7].
  right. eexists. cbn [g_samples g_counts].
  split; [|split; [|split; reflexivity]]; cbn [distance_band]; [|exact Hc].
  apply (fill_like _ ds (if is_outdoor then "outdoor"%string else "indoor"%string)
           lo hi d u scene_num scan_num frame_num);
    cbn; try reflexivity; try assumption.
  - assert (0 <= lit (3 # 10)) by lit_le. lra.
  - destruct is_outdoor; auto.
Qed.

End GeneratorFacts.

Section GeneratorComplete.

Context (R : RandomSource).

Lemma count_zero (band : string) : count zero_counts band = 0%nat.
Proof.
  unfold count. destruct (zero_counts !! band) as [n|] eqn:E; [|reflexivity].
  unfold zero_counts in E. apply elem_of_list_to_map_2 in E.
  apply list_elem_of_In in E. cbn in E.
  repeat (destruct E as [E|E]; [now inversion E|]).
  destruct E.
Qed.

Lemma gen_inv_init (seed : Z) : gen_inv R (gen_init R seed).
Proof.
  repeat split.
  - apply quota_ok_zero.
  - intros band. apply count_zero.
  - constructor.
Qed.

Lemma gen_inv_ext (st st' : gen_state R) :
  g_samples R st' = g_samples R st -> g_counts R st' = g_counts R st ->
  gen_inv R st -> gen_inv R st'.
Proof. unfold gen_inv. intros -> ->. tauto. Qed.

Lemma emits_inv (st st' : gen_state R) : emits R st st' -> gen_inv R st -> gen_inv R st'.
Proof.
  intros [[Hs Hc]|(s & Hshape & Hlt & Hs & Hc)] Hinv.
  - now apply (gen_inv_ext st).
  - destruct Hinv as (Hq & Hcnt & Hall). unfold gen_inv. rewrite Hs, Hc.
    repeat split.
    + apply (admission_step_quota (g_counts R st)); [|exact Hq].
      right. now exists (distance_band s).
    + intros band. rewrite band_count_app, band_count_single, <- Hcnt.
      destruct (String.eqb_spec (distance_band s) band) as [->|Hne].
      * rewrite count_bump_same. lia.
      * rewrite count_bump_other by exact Hne. lia.
    + apply Forall_app. split; [exact Hall | now constructor].
Qed.

Lemma for_each_inv {X S : Type} (P : S -> Prop) (body : S -> X -> S)
    (xs : list X) (st : S) :
  (forall s x, P s -> P (body s x)) -> P st -> P (for_each body xs st).
Proof.
  intros H. revert st. induction xs as [|x xs IH]; intros st Hst; [exact Hst|].
  cbn. apply IH. now apply H.
Qed.

Lemma while_loop_inv {S : Type} (P : S -> Prop) (fuel : nat) (cond : S -> bool)
    (body : S -> S) (st st' : S) :
  (forall s, cond s = true -> P s -> P (body s)) ->
  P st -> while_loop fuel cond body st = Some st' -> P st'.
Proof.
  intros H. revert st. induction fuel as [|fuel IH]; intros st Hst; cbn;
    destruct (cond st) eqn:E; try discriminate.
  - intros Hr. now inversion Hr; subst.
  - intros Hr. apply (IH (body st)); auto.
  - intros Hr. now inversion Hr; subst.
Qed.

Lemma after_sampling_inv (seed : Z) : gen_inv R (after_sampling R seed).
Proof.
  unfold after_sampling.
  destruct (ark_distances R (gen_init R seed)) as [a1 s1] eqn:E1.
  destruct (indoor_distances R (for_each (synth_ark_body R) a1 s1)) as [a2 s2] eqn:E2.
  destruct (outdoor_distances R (for_each (synth_indoor_body R) a2 s2)) as [a3 s3] eqn:E3.
  assert (I1 : gen_inv R s1).
  { apply (gen_inv_ext (gen_init R seed)); [| |apply gen_inv_init];
      unfold ark_distances in E1;
      destruct (np_lognormal R _ _ 20000 _) as [a np1];
      destruct (rng_shuffle R _ _) as [p r1]; now inversion E1. }
  assert (I2 : gen_inv R s2).
  { apply (gen_inv_ext (for_each (synth_ark_body R) a1 s1)).
    1,2: unfold indoor_distances in E2;
      destruct (np_lognormal R 3 _ _ _) as [a np1]; now inversion E2.
    apply for_each_inv; [|exact I1].
    intros s x. apply emits_inv, synth_ark_body_emits. }
  assert (I3 : gen_inv R s3).
  { apply (gen_inv_ext (for_each (synth_indoor_body R) a2 s2)).
    1,2: unfold outdoor_distances in E3;
      destruct (np_lognormal R 25 _ _ _) as [a np1]; now inversion E3.
    apply for_each_inv; [|exact I2].
    intros s x. apply emits_inv, synth_indoor_body_emits. }
  apply for_each_inv; [|exact I3].
  intros s x. apply emits_inv, synth_outdoor_body_emits.
Qed.

(** The fill loop of one band: it stops within [target - count]
    iterations, with the band exactly full and the other bands as they
    were. *)
Lemma fill_loop_complete (band_name : string) (lo hi : Q) (fuel : nat)
    (st : gen_state R) :
  In (band_name, (lo, hi)) DISTANCE_BANDS ->
  gen_inv R st ->
  (target band_name - count (g_counts R st) band_name <= fuel)%nat ->
  exists st',
    while_loop fuel (fill_cond R band_name) (fill_body R band_name lo hi) st = Some st' /\
    gen_inv R st' /\
    count (g_counts R st') band_name = target band_name /\
    forall band, band <> band_name ->
      count (g_counts R st') band = count (g_counts R st) band.
Proof.
  intros Hin. revert st. induction fuel as [|fuel IH]; intros st Hinv Hfuel.
  - cbn [while_loop]. destruct (fill_cond R band_name st) eqn:Hc.
    + unfold fill_cond in Hc. apply Nat.ltb_lt in Hc. lia.
    + unfold fill_cond in Hc. apply Nat.ltb_ge in Hc.
      exists st. split; [reflexivity|]. split; [exact Hinv|]. split; [|auto].
      destruct Hinv as (Hq & _). specialize (Hq band_name). lia.
  - cbn [while_loop]. destruct (fill_cond R band_name st) eqn:Hc.
    + pose proof (fill_body_emits R band_name lo hi st Hin Hc) as He.
      pose proof (proj1 (fill_body_effect R band_name lo hi st)) as Hb.
      destruct (IH (fill_body R band_name lo hi st)) as (st' & Hw & Hinv' & Hfull & Hother).
      * now apply (emits_inv st).
      * rewrite Hb, count_bump_same. lia.
      * exists st'. split; [exact Hw|]. split; [exact Hinv'|]. split; [exact Hfull|].
        intros band Hne. rewrite (Hother band Hne), Hb.
        apply count_bump_other. congruence.
    + unfold fill_cond in Hc. apply Nat.ltb_ge in Hc.
      exists st. split; [reflexivity|]. split; [exact Hinv|]. split; [|auto].
      destruct Hinv as (Hq & _). specialize (Hq band_name). lia.
Qed.

Lemma fill_bands_complete (fuel : nat) (bands : list (string * (Q * Q)))
    (st : gen_state R) :
  (forall b, In b bands -> In b DISTANCE_BANDS) ->
  List.NoDup (map fst bands) ->
  (2000 <= fuel)%nat ->
  gen_inv R st ->
  exists st',
    fill_bands R fuel bands st = Some st' /\
    gen_inv R st' /\
    (forall band, In band (map fst bands) ->
       count (g_counts R st') band = target band) /\
    (forall band, ~ In band (map fst bands) ->
       count (g_counts R st') band = count (g_counts R st) band).
Proof.
  intros Hsub Hnd Hfuel. revert st.
  induction bands as [|[band_name [lo hi]] rest IH]; intros st Hinv.
  - exists st. cbn [fill_bands map]. split; [reflexivity|]. split; [exact Hinv|].
    split; [|auto]. intros band [].
  - cbn [map fst] in Hnd. apply List.NoDup_cons_iff in Hnd. destruct Hnd as [Hnotin Hnd].
    destruct (fill_loop_complete band_name lo hi fuel st) as (st1 & Hw & Hinv1 & Hfull & Hother).
    { apply Hsub. now left. }
    { exact Hinv. }
    { pose proof (target_le_2000 band_name). lia. }
    destruct (IH (fun b Hb => Hsub b (or_intror Hb)) Hnd st1 Hinv1)
      as (st' & Hf & Hinv' & Hfilled & Hrest).
    exists st'. cbn [fill_bands]. rewrite Hw.
    split; [exact Hf|]. split; [exact Hinv'|]. split.
    + intros band [E|Hb]; [|now apply Hfilled].
      cbn [fst] in E. rewrite <- E. now rewrite (Hrest band_name Hnotin).
    + intros band Hb.
      rewrite Hrest by (intros Hr; apply Hb; now right).
      apply Hother. intros ->. apply Hb. now left.
Qed.

Lemma fill_bands_inv (fuel : nat) (bands : list (string * (Q * Q)))
    (st st' : gen_state R) :
  (forall b, In b bands -> In b DISTANCE_BANDS) ->
  gen_inv R st -> fill_bands R fuel bands st = Some st' -> gen_inv R st'.
Proof.
  revert st. induction bands as [|[band_name [lo hi]] rest IH]; intros st Hsub Hinv.
  - cbn. intros H. now inversion H; subst.
  - cbn [fill_bands].
    destruct (while_loop fuel _ _ st) as [st1|] eqn:Hw; [|discriminate].
    apply IH; [intros b Hb; apply Hsub; now right|].
    apply (while_loop_inv (gen_inv R) _ _ _ _ _ (fun s Hc => emits_inv s _
             (fill_body_emits R band_name lo hi s (Hsub _ (or_introl eq_refl)) Hc))
             Hinv Hw).
Qed.

End GeneratorComplete.

(** C5.  Run alone, the synthetic generator terminates (any fuel of at
    least 2000 iterations per fill loop is enough) and returns a list in
    which every band has exactly its target number of samples, 10000
    samples in all; [main] in synthetic mode returns that list.  Each
    iteration of a fill loop raises its band's count by exactly one, and
    the loop leaves the band exactly full. *)
Theorem synthetic_generator_complete (R : RandomSource) (fuel : nat)
    (output_dir : string) (seed : Z) :
  (2000 <= fuel)%nat ->
  (exists samples,
     generate_synthetic_manifest R fuel output_dir seed = Some samples /\
     (forall band, In band band_names -> band_count samples band = target band) /\
     length samples = total_target /\
     Z.of_nat total_target = 10000%Z /\
     (forall (args : Args) (ark : list ark_scene) (diode : diode_tree),
        synthetic_mode args = true ->
        arg_output args = output_dir -> arg_seed args = seed ->
        main R fuel args ark diode = Some samples)) /\
  (forall band_name lo hi (st : gen_state R),
     fill_cond R band_name st = true ->
     (count (g_counts R st) band_name < target band_name)%nat /\
     count (g_counts R (fill_body R band_name lo hi st)) band_name
       = S (count (g_counts R st) band_name)) /\
  (forall band_name lo hi (st : gen_state R),
     In (band_name, (lo, hi)) DISTANCE_BANDS -> gen_inv R st ->
     exists st',
       while_loop fuel (fill_cond R band_name) (fill_body R band_name lo hi) st
         = Some st' /\
       count (g_counts R st') band_name = target band_name).
Proof.
  intros Hfuel. split; [|split].
  - destruct (fill_bands_complete R fuel DISTANCE_BANDS (after_sampling R seed))
      as (st & Hf & Hinv & Hfull & _).
    { auto. }
    { cbn. repeat constructor; cbn; intuition discriminate. }
    { exact Hfuel. }
    { apply after_sampling_inv. }
    set (samples := fst (rng_shuffle R (g_samples R st) (g_rng R st))).
    assert (Hgen : generate_synthetic_manifest R fuel output_dir seed = Some samples).
    { unfold generate_synthetic_manifest. now rewrite Hf. }
    assert (Hperm : Permutation samples (g_samples R st))
      by apply rng_shuffle_perm.
    destruct Hinv as (_ & Hcnt & Hall).
    assert (Hbands : forall band, In band band_names ->
              band_count samples band = target band).
    { intros band Hb. rewrite (band_count_perm _ _ band Hperm), <- Hcnt.
      now apply Hfull. }
    exists samples. split; [exact Hgen|]. split; [exact Hbands|].
    split; [|split; [reflexivity|]].
    + rewrite length_by_band.
      * rewrite (map_ext_in _ target) by exact Hbands. reflexivity.
      * apply (Permutation_Forall (Permutation_sym Hperm)).
        revert Hall. apply List.Forall_impl. exact synthetic_sample_band.
    + intros args ark diode Hmode Hout Hseed. unfold main.
      now rewrite Hmode, Hout, Hseed.
  - intros band_name lo hi st Hc. split.
    + unfold fill_cond in Hc. now apply Nat.ltb_lt in Hc.
    + rewrite (proj1 (fill_body_effect R band_name lo hi st)).
      apply count_bump_same.
  - intros band_name lo hi st Hin Hinv.
    destruct (fill_loop_complete R band_name lo hi fuel st Hin Hinv)
      as (st' & Hw & _ & Hfull & _).
    { pose proof (target_le_2000 band_name). lia. }
    now exists st'.
Qed.

(** C5 with the low random source and 2000 iterations of fuel. *)
Lemma synthetic_generator_complete_witness :
  exists samples,
    generate_synthetic_manifest low_source 2000 "out" 42 = Some samples /\
    (forall band, In band band_names -> band_count samples band = target band) /\
    length samples = total_target /\
    Z.of_nat total_target = 10000%Z.
Proof.
  destruct (proj1 (synthetic_generator_complete low_source 2000 "out" 42
                     (Nat.le_refl 2000)))
    as (samples & H1 & H2 & H3 & H4 & _).
  exists samples. exact (conj H1 (conj H2 (conj H3 H4))).
Defined.

(** ** Ordering of the spread *)

Lemma insert_sorted_ascending (x : Q) (l : list Q) :
  ascending l -> ascending (insert_sorted x l).
Proof.
  induction l as [|y l IH]; intros H.
  - cbn. split; [intros y []|exact I].
  - cbn [insert_sorted]. destruct H as [Hy Hl].
    destruct (Qle_bool x y) eqn:E.
    + apply Qle_bool_iff in E. cbn. split; [|split; assumption].
      intros z [<-|Hz]; [exact E|]. specialize (Hy z Hz). lra.
    + apply Qle_bool_false in E. cbn [ascending]. split; [|now apply IH].
      intros z Hz. destruct (insert_sorted_In _ _ _ Hz) as [->|Hz'].
      * lra.
      * now apply Hy.
Qed.

Lemma sort_asc_ascending (l : list Q) : ascending (sort_asc l).
Proof.
  induction l as [|x l IH]; [exact I|].
  cbn [sort_asc fold_right]. fold (sort_asc l). now apply insert_sorted_ascending.
Qed.

Lemma ascending_nth (l : list Q) (i j : nat) :
  ascending l -> (i <= j)%nat -> (j < length l)%nat -> nth i l 0 <= nth j l 0.
Proof.
  revert i j. induction l as [|x l IH]; intros i j Hs Hij Hj; [cbn in Hj; lia|].
  destruct Hs as [Hx Hl]. destruct i as [|i], j as [|j]; cbn [nth].
  - apply Qle_refl.
  - apply Hx. apply nth_In. cbn in Hj. lia.
  - lia.
  - apply IH; [exact Hl | lia | cbn in Hj; lia].
Qed.

Lemma interpolate_bounds (s : list Q) (x : Q) :
  ascending s -> 0 <= x -> x <= inject_Z (Z.of_nat (length s - 1)) ->
  (0 < length s)%nat ->
  nth (Z.to_nat (Qfloor x)) s 0 <= interpolate s x /\
  interpolate s x <= nth (Nat.min (Z.to_nat (Qfloor x) + 1) (length s - 1)) s 0.
Proof.
  intros Hs H0 Hx Hn. unfold interpolate.
  pose proof (Qfloor_le x) as F1. pose proof (Qlt_floor x) as F2.
  assert (Hf0 : (0 <= Qfloor x)%Z).
  { change 0%Z with (Qfloor 0). now apply Qfloor_resp_le. }
  assert (Hfn : (Qfloor x <= Z.of_nat (length s - 1))%Z).
  { rewrite <- (Qfloor_Z (Z.of_nat (length s - 1))). now apply Qfloor_resp_le. }
  set (i := Z.to_nat (Qfloor x)) in *.
  set (g := x - inject_Z (Qfloor x)).
  assert (Hg : 0 <= g /\ g <= 1).
  { unfold g. rewrite inject_Z_plus in F2. change (inject_Z 1) with 1 in F2.
    split; lra. }
  assert (Hab : nth i s 0 <= nth (Nat.min (i + 1) (length s - 1)) s 0).
  { apply ascending_nth; [exact Hs | subst i; lia | lia]. }
  set (a := nth i s 0) in *. set (b := nth (Nat.min (i + 1) (length s - 1)) s 0) in *.
  assert (P : 0 <= (b - a) * g) by (apply Qmult_le_0_compat; lra).
  assert (P' : 0 <= (b - a) * (1 - g)) by (apply Qmult_le_0_compat; lra).
  split; [lra|].
  assert (E : (b - a) * (1 - g) == (b - a) - (b - a) * g) by ring.
  lra.
Qed.

Lemma interpolate_mono (s : list Q) (x y : Q) :
  ascending s -> (0 < length s)%nat ->
  0 <= x -> x <= y -> y <= inject_Z (Z.of_nat (length s - 1)) ->
  interpolate s x <= interpolate s y.
Proof.
  intros Hs Hn H0 Hxy Hy.
  assert (Hfy : (Qfloor y <= Z.of_nat (length s - 1))%Z).
  { rewrite <- (Qfloor_Z (Z.of_nat (length s - 1))). now apply Qfloor_resp_le. }
  assert (Hfx : (0 <= Qfloor x)%Z).
  { change 0%Z with (Qfloor 0). now apply Qfloor_resp_le. }
  pose proof (Qfloor_resp_le x y Hxy) as Hf.
  destruct (Z.eq_dec (Qfloor x) (Qfloor y)) as [E|N].
  - unfold interpolate. rewrite E.
    set (a := nth (Z.to_nat (Qfloor y)) s 0).
    set (b := nth (Nat.min (Z.to_nat (Qfloor y) + 1) (length s - 1)) s 0).
    assert (Hab : a <= b).
    { apply ascending_nth; [exact Hs | lia | lia]. }
    assert (P : 0 <= (b - a) * (y - x)) by (apply Qmult_le_0_compat; lra).
    generalize (inject_Z (Qfloor y)). intros f.
    assert (E' : (b - a) * (y - x) == (b - a) * (y - f) - (b - a) * (x - f)) by ring.
    lra.
  - destruct (interpolate_bounds s x Hs H0) as [_ U]; [lra | exact Hn |].
    destruct (interpolate_bounds s y Hs) as [L _]; [lra | exact Hy | exact Hn |].
    assert (M : nth (Nat.min (Z.to_nat (Qfloor x) + 1) (length s - 1)) s 0
                <= nth (Z.to_nat (Qfloor y)) s 0).
    { apply ascending_nth; [exact Hs | lia | lia]. }
    lra.
Qed.

Lemma fl32_mono (a b : Q) : a <= b -> fl32 a <= fl32 b.
Proof. apply round_prec_mono. lia. Qed.

Lemma np_percentile_mono (v : list Q) (q1 q2 : Q) :
  v <> [] -> 0 <= q1 -> q1 <= q2 -> q2 <= 100 ->
  np_percentile v q1 <= np_percentile v q2.
Proof.
  intros Hne H0 H12 H2. unfold np_percentile. apply fl32_mono.
  assert (Hlen : (0 < length (sort_asc v))%nat).
  { rewrite sort_asc_length. destruct v; [congruence | cbn; lia]. }
  set (n1 := inject_Z (Z.of_nat (length (sort_asc v) - 1))).
  assert (Hn1 : 0 <= n1) by (unfold n1; rewrite <- (Zle_Qle 0); lia).
  apply (interpolate_mono (sort_asc v)).
  - apply sort_asc_ascending.
  - exact Hlen.
  - apply Qmult_le_0_compat; [exact Hn1|]. apply Qle_shift_div_l; lra.
  - rewrite !(Qmult_comm n1). apply Qmult_le_compat_r; [|exact Hn1].
    apply Qmult_le_compat_r; [exact H12|]. apply Qinv_le_0_compat. lra.
  - assert (E : q2 / 100 <= 1) by (apply Qle_shift_div_r; lra).
    assert (L : n1 * (q2 / 100) <= n1 * 1)
      by (rewrite !(Qmult_comm n1); apply Qmult_le_compat_r; assumption).
    rewrite Qmult_1_r in L. exact L.
Qed.

Lemma compute_percentiles_cases (depth : depth_map) :
  compute_percentiles depth = (None, None) \/
  exists v, v <> [] /\
    compute_percentiles depth = (Some (np_percentile v 25), Some (np_percentile v 75)).
Proof.
  unfold compute_percentiles.
  match goal with |- context [valid_depths ?roi] => set (v := valid_depths roi) end.
  destruct (Nat.ltb_spec (length v) 10); [now left|].
  right. exists v. split; [|reflexivity].
  intros E. rewrite E in H. cbn in H. lia.
Qed.

Lemma compute_percentiles_ordered (depth : depth_map) (p25 p75 : Q) :
  compute_percentiles depth = (Some p25, Some p75) -> p25 <= p75.
Proof.
  destruct (compute_percentiles_cases depth) as [E|(v & Hv & E)]; rewrite E.
  - discriminate.
  - intros H. inversion H; subst. apply np_percentile_mono; [exact Hv|..]; lra.
Qed.

Lemma round4_if_truthy_Some (x : option Q) (r : Q) :
  round4_if_truthy x = Some r -> exists v, x = Some v /\ r = py_round v 4.
Proof.
  destruct x as [v|]; cbn; [|discriminate].
  destruct (Qeq_bool v 0); [discriminate|].
  intros H. inversion H. now exists v.
Qed.

Lemma real_spread_ordered (depth : depth_map) (a b : Q) :
  round4_if_truthy (fst (compute_percentiles depth)) = Some a ->
  round4_if_truthy (snd (compute_percentiles depth)) = Some b ->
  a <= b.
Proof.
  intros Ha Hb.
  apply round4_if_truthy_Some in Ha, Hb.
  destruct Ha as (x & Hx & ->). destruct Hb as (y & Hy & ->).
  apply py_round_mono. apply (compute_percentiles_ordered depth).
  destruct (compute_percentiles depth) as [p q]. cbn in Hx, Hy. congruence.
Qed.

Lemma offer_diode_spread (tier : Z) (bc : gmap string nat) (c : diode_candidate)
    (s : GroundTruthSample) :
  snd (offer_diode tier bc c) = Accepted s -> spread_ordered s.
Proof.
  unfold offer_diode.
  destruct (sample_center_patch _ 2) as [center|]; [|discriminate].
  destruct (Qlt_b center _); [discriminate|].
  destruct (classify_distance _) as [band|]; [|discriminate].
  destruct (target band <=? count bc band)%nat; [discriminate|].
  destruct (compute_percentiles (diode_depth32 (dc_frame c))) as [p25 p75] eqn:E.
  cbn [snd]. intros H. inversion H; subst. clear H.
  intros a b Ha Hb. cbn in Ha, Hb.
  apply (real_spread_ordered (diode_depth32 (dc_frame c))); now rewrite E.
Qed.

Lemma offer_arkitscenes_spread (tier : Z) (bc : gmap string nat) (c : ark_candidate)
    (s : GroundTruthSample) :
  snd (offer_arkitscenes tier bc c) = Accepted s -> spread_ordered s.
Proof.
  unfold offer_arkitscenes.
  destruct (sample_center_patch (ac_gt c) 2) as [center|]; [|discriminate].
  destruct (Qlt_b center _); [discriminate|].
  destruct (classify_distance _) as [band|]; [|discriminate].
  destruct (target band <=? count bc band)%nat; [discriminate|].
  destruct (compute_percentiles (ac_gt c)) as [p25 p75] eqn:E.
  cbn [snd]. intros H. inversion H; subst. clear H.
  intros a b Ha Hb. cbn in Ha, Hb.
  apply (real_spread_ordered (ac_gt c)); now rewrite E.
Qed.

(** The simulated spread: both ends start from [d], the low one going
    down and the high one up. *)
Lemma low_high_of (d u w_lo w_hi : Q) :
  0 <= d -> 0 <= u -> 0 <= w_lo -> 0 <= w_hi ->
  low_of d u w_lo <= fl64 d /\ fl64 d <= high_of d u w_hi.
Proof.
  intros Hd Hu Hl Hh. unfold low_of, high_of.
  assert (S : 0 <= fl64 (d * u)) by (apply fl64_nonneg, Qmult_le_0_compat; assumption).
  assert (L : 0 <= fl64 (fl64 (d * u) * w_lo))
    by (apply fl64_nonneg, Qmult_le_0_compat; assumption).
  assert (H : 0 <= fl64 (fl64 (d * u) * w_hi))
    by (apply fl64_nonneg, Qmult_le_0_compat; assumption).
  split; apply fl64_mono; lra.
Qed.

Lemma half_le_fl64 (d : Q) : 1 # 2 <= d -> 1 # 2 <= fl64 d.
Proof.
  intros H. change (1 # 2) with (fl64 (1 # 2)) at 1. now apply fl64_mono.
Qed.

Lemma classify_distance_ge_half (d : Q) (band : string) :
  classify_distance (FFin d) = Some band -> 1 # 2 <= d.
Proof.
  intros H. destruct (classify_distance_Some _ _ H) as (q & lo & hi & E & Hin & L & _).
  inversion E; subst q. apply band_of_table in Hin.
  repeat destruct Hin as [Hin|Hin]; inversion Hin; subst; lra.
Qed.

Lemma round4_max_le (floor x y : Q) :
  floor <= 1 # 2 -> x <= y -> 1 # 2 <= y ->
  round4_max floor x <= np_round y 4.
Proof.
  intros Hf Hxy Hy. unfold round4_max.
  destruct (Qlt_b floor x).
  - now apply np_round_mono.
  - apply (Qle_trans _ (py_round (1 # 2) 4)); [now apply py_round_mono|].
    apply (Qle_trans _ (np_round (1 # 2) 4)); [lit_le | now apply np_round_mono].
Qed.

Lemma synthetic_sample_spread (s : GroundTruthSample) :
  synthetic_sample s -> spread_ordered s.
Proof.
  intros [d u sc fr Hc Hu _ Hp25 Hp75 _
         |env fl wl wh d u sc sn fr Hc Hu Hwl Hwh Hfl _ _ Hp25 Hp75 _
         |ds env lo hi d u sc sn fr Hin Hlo _ Hu _ _ _ Hp25 Hp75 _]
         a b Ha Hb; rewrite Hp25 in Ha; rewrite Hp75 in Hb;
    inversion Ha; inversion Hb; subst a b; clear Ha Hb.
  - pose proof (classify_distance_ge_half d _ Hc) as Hd.
    assert (W1 : 0 <= lit (4 # 10)) by lit_le.
    assert (W2 : 0 <= lit (6 # 10)) by lit_le.
    destruct (low_high_of d u (lit (4 # 10)) (lit (6 # 10))) as [L H]; try lra.
    pose proof (half_le_fl64 d Hd).
    apply round4_max_le; [lit_le | lra | lra].
  - pose proof (classify_distance_ge_half d _ Hc) as Hd.
    destruct (low_high_of d u wl wh) as [L H]; try lra.
    pose proof (half_le_fl64 d Hd).
    apply round4_max_le; [exact Hfl | lra | lra].
  - assert (Hd : 1 # 2 <= d).
    { apply band_of_table in Hin.
      repeat destruct Hin as [Hin|Hin]; inversion Hin; subst; lra. }
    assert (W1 : 0 <= lit (4 # 10)) by lit_le.
    assert (W2 : 0 <= lit (6 # 10)) by lit_le.
    destruct (low_high_of d u (lit (4 # 10)) (lit (6 # 10))) as [L H]; try lra.
    pose proof (half_le_fl64 d Hd).
    apply py_round_mono. unfold py_max.
    destruct (Qlt_b (lit (3 # 10)) _); [lra|].
    assert (lit (3 # 10) <= 1 # 2) by lit_le. lra.
Qed.

(** ** Where the samples of a run come from *)

Lemma record_outcome_samples (P : GroundTruthSample -> Prop) (acc : accumulator)
    (o : outcome) :
  (forall s, o = Accepted s -> P s) ->
  Forall P (fst acc) -> Forall P (fst (record_outcome acc o)).
Proof.
  intros Ho Hacc. destruct o; cbn; try exact Hacc.
  apply Forall_app. split; [exact Hacc|]. constructor; [now apply Ho | constructor].
Qed.

Lemma process_diode_samples (tier : Z) (tree : diode_tree) (bc : gmap string nat) :
  Forall real_sample (fst (process_diode tier tree bc)).
Proof.
  unfold process_diode.
  apply (for_each_inv (fun acc : accumulator => Forall real_sample (fst acc)));
    [|constructor].
  intros acc c Hacc. unfold step_diode. apply record_outcome_samples; [|exact Hacc].
  intros s Hs. left. now exists tier, (snd acc), c.
Qed.

Lemma process_arkitscenes_samples (tier : Z) (scenes : list ark_scene)
    (bc : gmap string nat) :
  Forall real_sample (fst (process_arkitscenes tier scenes bc)).
Proof.
  unfold process_arkitscenes.
  apply (for_each_inv (fun acc : accumulator => Forall real_sample (fst acc)));
    [|constructor].
  intros acc c Hacc. unfold step_arkitscenes.
  apply record_outcome_samples; [|exact Hacc].
  intros s Hs. right. now exists tier, (snd acc), c.
Qed.

Lemma real_pass_samples (tier : Z) (ark : list ark_scene) (diode : diode_tree) :
  Forall real_sample (fst (real_pass tier ark diode)).
Proof.
  unfold real_pass.
  pose proof (process_arkitscenes_samples tier ark zero_counts) as Ha.
  destruct (process_arkitscenes tier ark zero_counts) as [ark_samples bc1].
  pose proof (process_diode_samples tier diode bc1) as Hd.
  destruct (process_diode tier diode bc1) as [diode_samples bc2].
  cbn [fst] in *. apply Forall_app. now split.
Qed.

Section RunSamples.

Context (R : RandomSource).

Lemma generate_samples (fuel : nat) (output_dir : string) (seed : Z)
    (samples : list GroundTruthSample) :
  generate_synthetic_manifest R fuel output_dir seed = Some samples ->
  Forall synthetic_sample samples.
Proof.
  unfold generate_synthetic_manifest.
  destruct (fill_bands R fuel DISTANCE_BANDS (after_sampling R seed)) as [st|] eqn:Hf;
    [|discriminate].
  intros H. inversion H; subst. clear H.
  assert (Hinv : gen_inv R st).
  { apply (fill_bands_inv R fuel DISTANCE_BANDS (after_sampling R seed)); auto.
    apply after_sampling_inv. }
  destruct Hinv as (_ & _ & Hall).
  apply (Permutation_Forall (Permutation_sym (rng_shuffle_perm R _ _ _)) Hall).
Qed.

Lemma backfill_samples (P : GroundTruthSample -> Prop)
    (synthetic : list GroundTruthSample) (acc : accumulator) :
  Forall P synthetic -> Forall P (fst acc) ->
  Forall P (fst (for_each backfill_step synthetic acc)).
Proof.
  revert acc. induction synthetic as [|s rest IH]; intros acc Hs Hacc; [exact Hacc|].
  cbn. inversion Hs; subst. apply IH; [assumption|].
  unfold backfill_step. destruct (_ <? _)%nat; [|exact Hacc].
  cbn [fst]. apply Forall_app. split; [exact Hacc | now constructor].
Qed.

(** Every sample [main] hands to the manifest writer was accepted by an
    adapter or built by the generator. *)
Lemma main_samples (fuel : nat) (args : Args) (ark : list ark_scene)
    (diode : diode_tree) (samples : list GroundTruthSample) :
  main R fuel args ark diode = Some samples ->
  Forall (fun s => real_sample s \/ synthetic_sample s) samples.
Proof.
  unfold main. destruct (synthetic_mode args).
  - intros H. apply generate_samples in H.
    revert H. apply List.Forall_impl. tauto.
  - pose proof (real_pass_samples (arg_tier args) ark diode) as Hreal.
    assert (Hreal' : Forall (fun s => real_sample s \/ synthetic_sample s)
                       (fst (real_pass (arg_tier args) ark diode))).
    { revert Hreal. apply List.Forall_impl. tauto. }
    destruct (needs_backfill _).
    + destruct (generate_synthetic_manifest R fuel _ _) as [synthetic|] eqn:Hg;
        [|discriminate].
      intros H. inversion H; subst. clear H.
      apply backfill_samples; [|exact Hreal'].
      apply generate_samples in Hg. revert Hg. apply List.Forall_impl. tauto.
    + intros H. now inversion H; subst.
Qed.

End RunSamples.

(** C7.  Whenever both percentiles are present on a sample -- computed
    by [compute_percentiles] and rounded in the adapters, or simulated
    with the clamped asymmetric spread and rounded in the generator's
    loops -- the stored P25 is at most the stored P75; so it is for
    every sample of a generated manifest and of a whole run. *)
Theorem spread_ordering (R : RandomSource) :
  (forall depth p25 p75,
     compute_percentiles depth = (Some p25, Some p75) -> p25 <= p75) /\
  (forall s, real_sample s -> spread_ordered s) /\
  (forall s, synthetic_sample s -> spread_ordered s) /\
  (forall fuel output_dir seed samples,
     generate_synthetic_manifest R fuel output_dir seed = Some samples ->
     Forall spread_ordered samples) /\
  (forall fuel args ark diode samples,
     main R fuel args ark diode = Some samples ->
     Forall spread_ordered samples).
Proof.
  assert (Hreal : forall s, real_sample s -> spread_ordered s).
  { intros s [(tier & bc & c & H)|(tier & bc & c & H)].
    - exact (offer_diode_spread tier bc c s H).
    - exact (offer_arkitscenes_spread tier bc c s H). }
  split; [exact compute_percentiles_ordered|].
  split; [exact Hreal|].
  split; [exact synthetic_sample_spread|].
  split.
  - intros fuel output_dir seed samples H.
    apply generate_samples in H. revert H. apply List.Forall_impl.
    exact synthetic_sample_spread.
  - intros fuel args ark diode samples H.
    apply main_samples in H. revert H. apply List.Forall_impl.
    intros s [Hs|Hs]; [now apply Hreal | now apply synthetic_sample_spread].
Qed.

(** C7 on the ramp: the 6 x 6 region of interest gives P25 = 18 and
    P75 = 22. *)
Lemma spread_ordering_witness :
  compute_percentiles ramp_map = (Some 18, Some 22) /\ 18 <= 22.
Proof.
  assert (E : compute_percentiles ramp_map = (Some 18, Some 22))
    by (vm_compute; reflexivity).
  split; [exact E|].
  exact (proj1 (spread_ordering low_source) ramp_map 18 22 E).
Defined.

(** ** Iterations to spare *)




(** ** Frame identifiers *)

(** Let [cbn] unfold string concatenation on literal prefixes. *)
#[local] Arguments String.append !s1 s2 /.

Lemma all_chars_app (P : ascii -> bool) (s t : string) :
  all_chars P (s ++ t)%string = all_chars P s && all_chars P t.
Proof.
  induction s as [|c s IH]; [reflexivity|].
  cbn [String.append all_chars]. now rewrite IH, andb_assoc.
Qed.

Lemma string_of_uint_digits (d : uint) :
  all_chars digit (NilEmpty.string_of_uint d) = true.
Proof. induction d; cbn; auto. Qed.

Lemma zeros_string_of_uint (k : nat) (d : uint) :
  (zeros k ++ NilEmpty.string_of_uint d)%string
    = NilEmpty.string_of_uint (Nat.iter k D0 d).
Proof.
  induction k as [|k IH]; [reflexivity|].
  cbn. now rewrite IH.
Qed.

Lemma of_uint_leading_zeros (k : nat) (d : uint) :
  N.of_uint (Nat.iter k D0 d) = N.of_uint d.
Proof. induction k as [|k IH]; [reflexivity | exact IH]. Qed.

(** A zero-padded decimal reads back as the number it was made from. *)
Lemma zero_pad_value (width : nat) (n : N) :
  option_map N.of_uint (NilEmpty.uint_of_string (zero_pad width (decimal n))) = Some n.
Proof.
  unfold zero_pad, decimal. rewrite zeros_string_of_uint, NilEmpty.usu.
  cbn [option_map]. now rewrite of_uint_leading_zeros, DecimalN.Unsigned.of_to.
Qed.

Lemma zero_pad_inj (w w' : nat) (a b : N) :
  zero_pad w (decimal a) = zero_pad w' (decimal b) -> a = b.
Proof.
  intros H. pose proof (zero_pad_value w a) as Ha. rewrite H, zero_pad_value in Ha.
  now inversion Ha.
Qed.

Lemma zero_pad_digits (width : nat) (n : N) :
  all_chars digit (zero_pad width (decimal n)) = true.
Proof.
  unfold zero_pad, decimal. rewrite zeros_string_of_uint. apply string_of_uint_digits.
Qed.

Lemma decimal_nonempty (n : N) : decimal n <> ""%string.
Proof.
  unfold decimal. destruct n as [|p]; [discriminate|].
  cbn [N.to_uint]. pose proof (Unsigned.to_uint_nonnil p) as H.
  destruct (Pos.to_uint p); try discriminate. congruence.
Qed.

Lemma zero_pad_head (width : nat) (n : N) :
  exists c rest, zero_pad width (decimal n) = String c rest /\ digit c = true.
Proof.
  pose proof (zero_pad_digits width n) as Hd.
  destruct (zero_pad width (decimal n)) as [|c rest] eqn:E.
  - exfalso. unfold zero_pad in E.
    destruct (zeros (width - String.length (decimal n))); cbn in E; [|discriminate].
    now apply (decimal_nonempty n).
  - exists c, rest. cbn in Hd. apply andb_true_iff in Hd. tauto.
Qed.

Lemma format_0d_numeric (width : nat) (n : Z) :
  all_chars numeric (format_0d width n) = true.
Proof.
  assert (H : forall s, all_chars digit s = true -> all_chars numeric s = true).
  { induction s as [|c s IH]; [reflexivity|]. cbn. unfold numeric at 1.
    intros Hs. apply andb_true_iff in Hs. destruct Hs as [-> Hs]. now rewrite IH. }
  unfold format_0d. destruct (n <? 0)%Z.
  - cbn. apply H, zero_pad_digits.
  - apply H, zero_pad_digits.
Qed.

Lemma format_0d_head (width : nat) (n : Z) :
  exists c rest, format_0d width n = String c rest /\ numeric c = true.
Proof.
  unfold format_0d. destruct (n <? 0)%Z.
  - eexists _, _. split; [reflexivity|reflexivity].
  - destruct (zero_pad_head width (Z.abs_N n)) as (c & rest & E & Hc).
    exists c, rest. split; [exact E|]. unfold numeric. now rewrite Hc.
Qed.

Lemma format_0d_inj (w : nat) (a b : Z) : format_0d w a = format_0d w b -> a = b.
Proof.
  unfold format_0d.
  destruct (Z.ltb_spec a 0) as [Ha|Ha]; destruct (Z.ltb_spec b 0) as [Hb|Hb]; intros H.
  - cbn in H. inversion H as [H']. apply zero_pad_inj in H'. lia.
  - destruct (zero_pad_head w (Z.abs_N b)) as (c & rest & E & Hc).
    rewrite E in H. cbn in H. inversion H; subst c. discriminate Hc.
  - destruct (zero_pad_head w (Z.abs_N a)) as (c & rest & E & Hc).
    rewrite E in H. cbn in H. inversion H; subst c. discriminate Hc.
  - apply zero_pad_inj in H. lia.
Qed.

(** Two underscore-separated strings with numeric heads split alike. *)
Lemma numeric_sep_inj (s1 s2 t1 t2 : string) :
  all_chars numeric s1 = true -> all_chars numeric s2 = true ->
  (s1 ++ String "_" t1)%string = (s2 ++ String "_" t2)%string ->
  s1 = s2 /\ t1 = t2.
Proof.
  revert s2. induction s1 as [|c s1 IH]; intros s2 H1 H2 H.
  - destruct s2 as [|c2 s2]; cbn in H.
    + now inversion H.
    + inversion H; subst c2. cbn in H2. discriminate H2.
  - destruct s2 as [|c2 s2]; cbn in H.
    + inversion H; subst c. cbn in H1. discriminate H1.
    + inversion H; subst c2. cbn in H1, H2.
      apply andb_true_iff in H1, H2.
      destruct (IH s2) as [-> ->]; tauto.
Qed.

Lemma string_cons_inv (a b : ascii) (s t : string) :
  String a s = String b t -> a = b /\ s = t.
Proof. intros H. now inversion H. Qed.

(** Drop the common literal prefix of an equation between strings, or
    close the goal when the prefixes differ. *)
Ltac strip H :=
  cbn [String.append] in H;
  repeat first
    [ discriminate H
    | apply string_cons_inv in H; destruct H as [_ H]; cbn [String.append] in H ].

(** Split an equation between two formatted numbers followed by an
    underscore. *)
Ltac sep H Hf :=
  apply numeric_sep_inj in H;
  [ destruct H as [Hf H]; apply format_0d_inj in Hf
  | apply format_0d_numeric | apply format_0d_numeric ].

(** A formatted number never starts like a word. *)
Ltac head_clash H :=
  match type of H with
  | (format_0d ?w ?a ++ _)%string = String _ _ =>
      let c := fresh "c" in let r := fresh "r" in
      let E := fresh "E" in let Hc := fresh "Hc" in
      destruct (format_0d_head w a) as (c & r & E & Hc);
      rewrite E in H; cbn [String.append] in H;
      apply string_cons_inv in H; destruct H as [H _];
      rewrite H in Hc; discriminate Hc
  | String _ _ = (format_0d ?w ?a ++ _)%string =>
      symmetry in H; head_clash H
  end.

Lemma id_string_inj (i j : synthetic_id) :
  well_tagged i -> well_tagged j -> id_string i = id_string j -> i = j.
Proof.
  destruct i as [s f|e s n f|d e s n f], j as [s' f'|e' s' n' f'|d' e' s' n' f'];
    cbn [well_tagged]; unfold is_env, is_dataset; intros Hi Hj H;
    cbn [id_string] in H;
    unfold synthetic_ark_frame_id, synthetic_diode_frame_id, fill_frame_id in H.
  - strip H. sep H Hs. apply format_0d_inj in H. congruence.
  - destruct Hj as [->| ->]; strip H.
  - destruct Hj as [[->| ->] [->| ->]]; strip H; head_clash H.
  - destruct Hi as [->| ->]; strip H.
  - destruct Hi as [->| ->], Hj as [->| ->]; strip H.
    + sep H Hs. strip H. sep H Hn. apply format_0d_inj in H. congruence.
    + sep H Hs. strip H. sep H Hn. apply format_0d_inj in H. congruence.
  - destruct Hi as [->| ->], Hj as [[->| ->] [->| ->]]; strip H; head_clash H.
  - destruct Hi as [[->| ->] [->| ->]]; strip H; head_clash H.
  - destruct Hi as [[->| ->] [->| ->]], Hj as [->| ->]; strip H; head_clash H.
  - destruct Hi as [[->| ->] [->| ->]], Hj as [[->| ->] [->| ->]]; strip H;
      sep H Hs; sep H Hn; apply format_0d_inj in H; congruence.
Qed.

Lemma synthetic_sample_id (s : GroundTruthSample) :
  synthetic_sample s -> exists i, well_tagged i /\ frame_id s = id_string i.
Proof.
  intros [d u sc fr _ _ _ _ _ Hid
         |env fl wl wh d u sc sn fr _ _ _ _ _ Henv _ _ _ Hid
         |ds env lo hi d u sc sn fr _ _ _ _ Hds Henv _ _ _ Hid].
  - exists (ArkId sc fr). now split.
  - exists (DiodeId env sc sn fr). now split.
  - exists (FillId ds env sc sn fr). now split.
Qed.

(** C9, as the code has it.  A synthetic [frame_id] is an injective
    encoding of the identifiers it is formatted from -- the loop's
    pattern, its dataset and environment tags, and the drawn scene, scan
    and frame numbers: two identifiers give the same string only when
    they are the same.  Every sample of a generated manifest carries
    such a [frame_id]; nothing makes the drawn numbers of two samples
    differ. *)
Theorem frame_id_identifies_source (R : RandomSource) :
  (forall i j : synthetic_id,
     well_tagged i -> well_tagged j -> (id_string i = id_string j <-> i = j)) /\
  (forall fuel output_dir seed samples,
     generate_synthetic_manifest R fuel output_dir seed = Some samples ->
     Forall (fun s => exists i, well_tagged i /\ frame_id s = id_string i) samples).
Proof.
  split.
  - intros i j Hi Hj. split; [now apply id_string_inj | now intros ->].
  - intros fuel output_dir seed samples H.
    apply generate_samples in H. revert H. apply List.Forall_impl.
    exact synthetic_sample_id.
Qed.

(** C9, as the code has it, on two identifiers with the same numbers
    and different patterns. *)
Lemma frame_id_identifies_source_witness :
  id_string (FillId "diode" "indoor" 1 2 3) <> id_string (DiodeId "indoor" 1 2 3).
Proof.
  intros H.
  apply (proj1 (frame_id_identifies_source low_source)) in H.
  - discriminate H.
  - cbn. unfold is_dataset, is_env. tauto.
  - cbn. unfold is_env. tauto.
Defined.

(** C9 refuted.  With a random source whose draws repeat, the first two
    samples of the generated manifest have the same [frame_id]; and the
    DIODE adapter, whose [frame_id] leaves the split out, emits two
    samples with one [frame_id] for [twin_tree]. *)
Lemma frame_id_not_unique :
  option_map first_two_share_id
    (generate_synthetic_manifest low_source 2000 "out" 42) = Some true /\
  length (fst (process_diode 1 twin_tree zero_counts)) = 2%nat /\
  first_two_share_id (fst (process_diode 1 twin_tree zero_counts)) = true.
Proof.
  split; [|split]; vm_compute; reflexivity.
Qed.

(** ** The stored centre and the stored band *)

(** C4 on the code.  The DIODE adapter accepts [edge_candidate] into
    band close, the class of its centre estimate 2.99996 m, and stores
    the centre rounded to four decimals, 3.0 m, whose class is near_mid.
    One iteration of the fill loop of band long, with a draw at the
    upper end of the band, stores 350.0 m under band long, and 350.0 m
    has no class. *)
Lemma stored_band_is_not_class_of_stored_center :
  (exists s,
     snd (offer_diode 1 zero_counts edge_candidate) = Accepted s /\
     sample_center_patch (diode_depth32 (dc_frame edge_candidate)) 2
       = Some (fl32 (299996 # 100000)) /\
     distance_band s = "close"%string /\
     ground_truth_center_m s = 3 /\
     classify_distance (FFin (ground_truth_center_m s)) = Some "near_mid"%string) /\
  (exists s,
     g_samples top_source
       (fill_body top_source "long" 150 350 (gen_init top_source 42)) = [s] /\
     distance_band s = "long"%string /\
     ground_truth_center_m s = 350 /\
     classify_distance (FFin (ground_truth_center_m s)) = None).
Proof.
  split.
  - eexists. split; [vm_compute; reflexivity|].
    split; [vm_compute; reflexivity|].
    split; [reflexivity|]. split; [reflexivity|]. vm_compute. reflexivity.
  - eexists. split; [vm_compute; reflexivity|].
    split; [reflexivity|]. split; [reflexivity|]. vm_compute. reflexivity.
Qed.

(** ** What an accepted frame stores *)



(** ** Samples and counts move together *)











(** ** The size of a run's sample list *)



Section RunSizes.

Context (R : RandomSource).





End RunSizes.






Section RunBounds.

Context (R : RandomSource).






End RunBounds.





(** ** The stored centre and its band's interval *)










(** ** The summary *)






(** ** The generator's samples, loop by loop *)



Section GeneratedSamples.

Context (R : RandomSource).











End GeneratedSamples.

(** ** The samples of a run, by origin *)






(** ** What the dataset of a sample fixes *)






(** ** What the generator's samples stay within *)





(** ** Files and tiers *)




(** *** The tier changes the files and nothing else *)








(** ** Full quotas *)







(** ** The statistics stay within the valid range *)










(** ** The stored statistics are the computed ones *)



